(** * Verification of the SVT-AV1 keyframe aligner and the resumable encode
      machinery of vs-muxtools.

    Sources embedded here:
    - [src/vsmuxtools/utils/source.py]: [generate_keyframes],
      [generate_qp_file], [generate_svt_av1_keyframes];
    - [src/vsmuxtools/video/encoders/base.py]: the resume part of
      [SupportsQP.encode] (with its part file names) and
      [FFMpegEncoder._pixfmt_for_clip];
    - [src/vsmuxtools/video/resumable.py]: [parse_keyframes],
      [merge_parts];
    - [src/vsmuxtools/video/encoders/standalone.py]: the scene detection
      cache of [SVTAV1.encode]. *)

From Stdlib Require Import ZArith List Lia Bool QArith Sorted.
From Stdlib Require Import Qabs.
From Stdlib Require String DecimalZ.
Import ListNotations.
Open Scope Z_scope.

(* ------------------------------------------------------------------ *)
(** ** The keyframe aligner ([generate_svt_av1_keyframes]) *)

Module Aligner.

(** [generate_keyframes]: the frames [i] in [range(1, clip.num_frames)]
    whose WWXD [Scenechange] property is 1. [sc] is that property for the
    (already start-cut) clip, one entry per frame. *)
Definition generate_keyframes (sc : list bool) : list Z :=
  map Z.of_nat (filter (fun i => nth i sc false) (seq 1 (length sc - 1))).

(** Keyword arguments of [generate_svt_av1_keyframes]. *)
Record params := {
  min_scene_length : Z;
  min_still_scene_length : Z;
  max_scene_length : Z
}.

Definition defaults : params :=
  {| min_scene_length := 129; min_still_scene_length := 193;
     max_scene_length := 257 |}.

(** Loop variables of the [while] loop. *)
Record state := {
  head : Z;
  current_frame : Z;
  svt_av1_frames : list Z
}.

(** [frames[i]] for an index known to be in range. *)
Definition get (l : list Z) (i : Z) : Z := nth (Z.to_nat i) l 0.

(** The [looka_head] loop: the frames from [head] on while
    [frames[looka_head] - current_frame <= max_scene_length]. *)
Fixpoint take_within (mx cur : Z) (l : list Z) : list Z :=
  match l with
  | [] => []
  | f :: t => if f - cur <=? mx then f :: take_within mx cur t else []
  end.

(** [for i in range(k - 1, -1, -1): if p(l[i]): return i]. *)
Fixpoint scan_down (p : Z -> bool) (l : list Z) (k : nat) : option nat :=
  match k with
  | O => None
  | S k' => if p (nth k' l 0) then Some k' else scan_down p l k'
  end.

Definition aligned (cur s f : Z) : bool := (f - cur) mod s =? 1.

(** [for structure in structs: for available_head in reversed(...)]:
    the index of the selected candidate. *)
Fixpoint search_structures (structs : list Z) (avail : list Z) (cur : Z)
  : option nat :=
  match structs with
  | [] => None
  | s :: ss =>
      match scan_down (aligned cur s) avail (length avail) with
      | Some i => Some i
      | None => search_structures ss avail cur
      end
  end.

(** Same search over [motion_frames[::-1]], giving the frame itself. *)
Fixpoint search_motion (structs : list Z) (motion : list Z) (cur : Z)
  : option Z :=
  match structs with
  | [] => None
  | s :: ss =>
      match scan_down (aligned cur s) motion (length motion) with
      | Some i => Some (nth i motion 0)
      | None => search_motion ss motion cur
      end
  end.

(** *** Statistics of the fallback path (LumaDiff values as rationals) *)

Definition qlt (x y : Q) : bool := negb (Qle_bool y x).

Fixpoint qinsert (x : Q) (l : list Q) : list Q :=
  match l with
  | [] => [x]
  | y :: t => if Qle_bool x y then x :: l else y :: qinsert x t
  end.

Definition qsort (l : list Q) : list Q := fold_right qinsert [] l.

(** [np.median] of one window. *)
Definition np_median (w : list Q) : Q :=
  let s := qsort w in
  let k := length s in
  if Nat.odd k then nth (k / 2) s 0%Q
  else ((nth (k / 2 - 1) s 0 + nth (k / 2) s 0) * (1 # 2))%Q.

(** [sliding_window_view(diffs, w)], for [len(diffs) >= w]. *)
Definition sliding_windows (w : nat) (l : list Q) : list (list Q) :=
  map (fun i => firstn w (skipn i l)) (seq 0 (length l - w + 1)).

(** [median + 3.0 * mad] per window. *)
Definition window_thr (w : list Q) : Q :=
  let m := np_median w in
  (m + 3 * np_median (map (fun x => Qabs (x - m)) w))%Q.

(** [np.concatenate((np.full((12,), thr[0]), thr, np.full((12,), thr[-1])))]. *)
Definition padded_thr (diffs : list Q) : list Q :=
  let thr := map window_thr (sliding_windows 25 diffs) in
  repeat (hd 0%Q thr) 12 ++ thr ++ repeat (last thr 0%Q) 12.

(** [np.argwhere(diffs > thr)]. *)
Fixpoint flagged_from (i : nat) (ds ts : list Q) : list nat :=
  match ds, ts with
  | d :: ds', t :: ts' =>
      if qlt t d then i :: flagged_from (S i) ds' ts'
      else flagged_from (S i) ds' ts'
  | _, _ => []
  end.

(** The frame indices of [diff_clip[a:b]] (Python slice, [0 <= a]). *)
Definition clip_slice (n a b : Z) : list Z :=
  map (fun k => a + Z.of_nat k) (seq 0 (Z.to_nat (Z.min b n - a))).

Section Fallback.
Variable P : params.
(** [n = len(clip)]; [diff i] is the [LumaDiff] of frame [i] of [diff_clip]. *)
Variable n : Z.
Variable diff : Z -> Q.

Definition fallback_diffs (cur : Z) : list Q :=
  map diff (clip_slice n (cur + min_still_scene_length P)
                         (cur + max_scene_length P + 1)).

Definition motion_frames (cur : Z) : list Z :=
  let diffs := fallback_diffs cur in
  map (fun i => Z.of_nat i + (cur + min_still_scene_length P))
      (flagged_from 0 diffs (padded_thr diffs)).

(** The [else] branch: [None] is the [ValueError] of
    [sliding_window_view] on fewer than 25 samples. *)
Definition fallback (cur : Z) : option Z :=
  if (length (fallback_diffs cur) <? 25)%nat then None
  else
    let motion := motion_frames cur in
    let selected :=
      match motion with
      | [] => None
      | _ => search_motion [32; 16; 8] motion cur
      end in
    match selected with
    | Some f => Some f
    | None => Some (cur + max_scene_length P)
    end.

End Fallback.

(** One iteration of the [while] loop over [frames] (the WWXD frames with
    [len(clip)] appended). *)
Definition step (P : params) (n : Z) (diff : Z -> Q) (frames : list Z)
    (st : state) : option state :=
  let hd := head st + 1 in
  let cur := current_frame st in
  let f := get frames hd in
  if f - cur <? min_scene_length P then
    if negb (hd =? Z.of_nat (length frames) - 1) then
      Some {| head := hd; current_frame := cur; svt_av1_frames := svt_av1_frames st |}
    else
      Some {| head := hd; current_frame := f;
              svt_av1_frames := svt_av1_frames st ++ [f] |}
  else if f - cur <=? max_scene_length P then
    let avail := take_within (max_scene_length P) cur
                   (skipn (Z.to_nat hd) frames) in
    let sel := match search_structures [32; 16; 8; 4; 2] avail cur with
               | Some i => i
               | None => (length avail - 1)%nat
               end in
    let hd' := hd + Z.of_nat sel in
    Some {| head := hd'; current_frame := get frames hd';
            svt_av1_frames := svt_av1_frames st ++ [get frames hd'] |}
  else
    match fallback P n diff cur with
    | None => None
    | Some sel =>
        Some {| head := hd - 1; current_frame := sel;
                svt_av1_frames := svt_av1_frames st ++ [sel] |}
    end.

(** [while head < len(frames) - 1]; [None] on an error or when [fuel]
    runs out (shown below never to happen). *)
Fixpoint loop (P : params) (n : Z) (diff : Z -> Q) (frames : list Z)
    (fuel : nat) (st : state) : option state :=
  if head st <? Z.of_nat (length frames) - 1 then
    match fuel with
    | O => None
    | S k =>
        match step P n diff frames st with
        | None => None
        | Some st' => loop P n diff frames k st'
        end
    end
  else Some st.

Definition all_frames (sc : list bool) : list Z :=
  generate_keyframes sc ++ [Z.of_nat (length sc)].

Definition init_state : state :=
  {| head := -1; current_frame := 0; svt_av1_frames := [0] |}.

Definition run (P : params) (sc : list bool) (diff : Z -> Q) : option state :=
  let frames := all_frames sc in
  loop P (Z.of_nat (length sc)) diff frames
       (length frames + length sc + 1) init_state.

(** [svt_av1_frames.pop(); return np.asarray(svt_av1_frames)]. *)
Definition generate_svt_av1_keyframes (P : params) (sc : list bool)
    (diff : Z -> Q) : option (list Z) :=
  match run P sc diff with
  | Some st => Some (removelast (svt_av1_frames st))
  | None => None
  end.

End Aligner.
(* ------------------------------------------------------------------ *)
(** ** Paths and files *)

Module Files.
Import String.

(** A [pathlib.Path] in the work directory, as stem and suffix
    ([.resolve()] does not change it). *)
Record path := { pstem : string; psuffix : string }.

Definition with_suffix (p : path) (s : string) : path :=
  {| pstem := pstem p; psuffix := s |}.
Definition with_stem (p : path) (s : string) : path :=
  {| pstem := s; psuffix := psuffix p |}.

Definition path_eqb (p q : path) : bool :=
  String.eqb (pstem p) (pstem q) && String.eqb (psuffix p) (psuffix q).

(** [p.unlink(True)]: remove [p] if present. *)
Definition remove_path (fs : list path) (p : path) : list path :=
  filter (fun q => negb (path_eqb q p)) fs.

End Files.

(* ------------------------------------------------------------------ *)
(** ** Resuming an encode ([SupportsQP.encode], [resumable] branch) *)

Module Recovery.
Import Files.

(** A part found by the glob, with what [parse_keyframes] gives for it:
    [Some l] the indices of its I frames, [None] when the call raises. *)
Record part := { part_file : path; probe : option (list Z) }.

(** [kf = parse_keyframes(p)[-1]]: [None] when this raises (also on an
    empty keyframe list, the [IndexError] of [[-1]]). *)
Definition last_keyframe (p : part) : option Z :=
  match probe p with
  | Some (k :: ks) => Some (last (k :: ks) 0)
  | _ => None
  end.

(** [for i, p in enumerate(parts)] while the body runs [del parts[-1]]:
    the iterator reads [parts[i]] as long as [i < len(parts)]. The loop
    touches no file. *)
Fixpoint scan_parts (fuel i : nat) (parts : list part) (keyframes : list Z)
  : list part * list Z :=
  match fuel with
  | O => (parts, keyframes)
  | S f =>
      match nth_error parts i with
      | None => (parts, keyframes)
      | Some p =>
          match last_keyframe p with
          | Some kf =>
              if kf =? 0 then scan_parts f (S i) (removelast parts) keyframes
              else scan_parts f (S i) parts (keyframes ++ [kf])
          | None => scan_parts f (S i) (removelast parts) keyframes
          end
      end
  end.

Record resume := {
  kept_parts : list part;     (** [parts] after the loop *)
  keyframes : list Z;         (** [keyframes] after the loop *)
  fout_ordinal : nat;         (** [len(parts)] in the name of [fout] *)
  start_frame : Z             (** [sum(keyframes)] *)
}.

(** Discovery over the sorted glob result, with the files on disk: the
    file list is passed through untouched. *)
Definition discover (files : list path) (parts : list part)
  : list path * resume :=
  let '(ps, kfs) := scan_parts (length parts) 0 parts [] in
  (files, {| kept_parts := ps; keyframes := kfs; fout_ordinal := length ps;
             start_frame := fold_left Z.add kfs 0 |}).

End Recovery.

(* ------------------------------------------------------------------ *)
(** ** What discovery keeps, for any position of the invalid parts *)

Module RecoverySpec.
Import Recovery.




End RecoverySpec.

(* ------------------------------------------------------------------ *)
(** ** Merging the parts ([merge_parts]) *)

Module Merge.
Import Files String.

(** The mkvtoolnix invocations of [merge_parts]. *)
Inductive cmd :=
| MkvSplit (o : path) (kf : Z) (input : path)   (* mkvmerge -o o --split frames:kf input *)
| MkvRemux (o : path) (input : path)            (* mkvmerge -o o input *)
| MkvAppend (o : path) (inputs : list path)     (* mkvmerge -o o i1 + i2 + ... *)
| MkvExtract (input : path) (o : path).         (* mkvextract input tracks 0:o *)

(** [run_commandline]: an external process, which gives an exit status
    and leaves the files in some new state. *)
Definition runner := cmd -> list path -> Z * list path.

Record world := {
  files : list path;
  invoked : list (cmd * Z)   (** every command run so far, with its status *)
}.

(** State and error monad: [inl msg] is a raised [error(msg)]. *)
Definition M (A : Type) := world -> (string + A) * world.

Definition ret {A} (a : A) : M A := fun w => (inr a, w).
Definition bind {A B} (m : M A) (k : A -> M B) : M B :=
  fun w => match m w with
           | (inl e, w') => (inl e, w')
           | (inr a, w') => k a w'
           end.
Definition raise {A} (msg : string) : M A := fun w => (inl msg, w).

Notation "x <- m ;; k" := (bind m (fun x => k))
  (at level 61, m at next level, right associativity).
Notation "m ;;; k" := (bind m (fun _ => k))
  (at level 61, right associativity).

Section WithRunner.
Variable run_commandline : runner.

Definition run_cmd (c : cmd) : M Z :=
  fun w => let '(st, fs) := run_commandline c (files w) in
           (inr st, {| files := fs; invoked := invoked w ++ [(c, st)] |}).

Definition unlink (p : path) : M unit :=
  fun w => (inr tt, {| files := remove_path (files w) p; invoked := invoked w |}).

Fixpoint unlink_all (ps : list path) : M unit :=
  match ps with
  | [] => ret tt
  | p :: t => unlink p ;;; unlink_all t
  end.

(** [src.rename(dst)]: raises when [src] is missing, replaces [dst]. *)
Definition rename (src dst : path) : M unit :=
  fun w =>
    if existsb (path_eqb src) (files w) then
      (inr tt, {| files := dst :: remove_path (remove_path (files w) src) dst;
                  invoked := invoked w |})
    else (inl "FileNotFoundError"%string, w).

Definition split_name (as_mkv : path) (n : string) : path :=
  with_stem as_mkv (pstem as_mkv ++ n).

(** The [for kf, part in zip(keyframes, parts)] loop. *)
Fixpoint split_parts (kps : list (Z * path)) (to_delete mkv_parts : list path)
  : M (list path * list path) :=
  match kps with
  | [] => ret (to_delete, mkv_parts)
  | (kf, part) :: t =>
      let as_mkv := with_suffix part ".mkv"%string in
      st <- run_cmd (MkvSplit as_mkv kf part) ;;
      if Z.ltb 1 st then raise "Failed to remux existing part"%string
      else
        let p1 := split_name as_mkv "-001"%string in
        let p2 := split_name as_mkv "-002"%string in
        split_parts t (to_delete ++ [p1; p2]) (mkv_parts ++ [p1])
  end.

Definition merge_parts (last original_out : path) (keyframes : list Z)
    (parts : list path) : M unit :=
  r <- split_parts (combine keyframes parts) [] [] ;;
  let to_delete := fst r ++ parts in
  let mkv_parts := snd r in
  if (List.length mkv_parts <? 1)%nat then
    unlink_all to_delete ;;; rename last original_out
  else
    let last_mkv := with_suffix last ".mkv"%string in
    st1 <- run_cmd (MkvRemux last_mkv last) ;;
    if Z.ltb 1 st1 then raise "Failed to remux last part"%string
    else
      let mkv_parts := mkv_parts ++ [last_mkv] in
      let to_delete := to_delete ++ [last_mkv; last] in
      let out_mkv := with_suffix original_out ".mkv"%string in
      st2 <- run_cmd (MkvAppend out_mkv mkv_parts) ;;
      if Z.ltb 1 st2 then raise "Failed to remux last part"%string
      else
        st3 <- run_cmd (MkvExtract out_mkv original_out) ;;
        if Z.ltb 1 st3 then raise "Failed to extract merged track!"%string
        else unlink_all (to_delete ++ [out_mkv]).

End WithRunner.

(** The split remnants [-001] and [-002] of every [(kf, part)] pair, and
    the [-001] halves that go into [mkv_parts]. *)
Definition part_splits (kps : list (Z * path)) : list path :=
  flat_map (fun kp => let as_mkv := with_suffix (snd kp) ".mkv"%string in
                      [split_name as_mkv "-001"%string; split_name as_mkv "-002"%string]) kps.

Definition part_firsts (kps : list (Z * path)) : list path :=
  map (fun kp => split_name (with_suffix (snd kp) ".mkv"%string) "-001"%string) kps.

(** The files every successful merge removes. *)
Definition merge_deleted (last original_out : path) (keyframes : list Z)
    (parts : list path) : list path :=
  match combine keyframes parts with
  | [] => parts ++ [last]
  | kps => part_splits kps ++ parts ++ [with_suffix last ".mkv"%string; last;
                                        with_suffix original_out ".mkv"%string]
  end.

End Merge.

(* ------------------------------------------------------------------ *)
(** ** Caches in the work directory *)

Module Cache.
Import String.
Open Scope string_scope.

(** Files of the work directory: name and content. *)
Definition store (A : Type) := list (string * A).

Fixpoint lookup {A} (fs : store A) (k : string) : option A :=
  match fs with
  | [] => None
  | (k', v) :: t => if String.eqb k k' then Some v else lookup t k
  end.

Definition save {A} (fs : store A) (k : string) (v : A) : store A :=
  (k, v) :: filter (fun e => negb (String.eqb (fst e) k)) fs.

Definition svt_cache : string := "svt_av1_scene_detection_cache.npy".

(** The [sd_clip] block of [SVTAV1.encode]: [detect] stands for
    [generate_svt_av1_keyframes(sd_clip)]. Returns the loaded keyframes,
    the new store, and whether the detection ran. *)
Definition scene_detection (detect : unit -> list Z) (fs : store (list Z))
  : list Z * store (list Z) * bool :=
  let '(fs', ran) :=
    match lookup fs svt_cache with
    | None => (save fs svt_cache (detect tt), true)
    | Some _ => (fs, false)
    end in
  match lookup fs' svt_cache with
  | Some kf => (kf, fs', ran)
  | None => ([], fs', ran)   (* unreachable: [np.load] of a saved file *)
  end.

(** [str(i)] for an integer. *)
Fixpoint uint_string (d : Decimal.uint) : string :=
  match d with
  | Decimal.Nil => ""
  | Decimal.D0 d => "0" ++ uint_string d
  | Decimal.D1 d => "1" ++ uint_string d
  | Decimal.D2 d => "2" ++ uint_string d
  | Decimal.D3 d => "3" ++ uint_string d
  | Decimal.D4 d => "4" ++ uint_string d
  | Decimal.D5 d => "5" ++ uint_string d
  | Decimal.D6 d => "6" ++ uint_string d
  | Decimal.D7 d => "7" ++ uint_string d
  | Decimal.D8 d => "8" ++ uint_string d
  | Decimal.D9 d => "9" ++ uint_string d
  end.

Definition z_string (z : Z) : string :=
  match Z.to_int z with
  | Decimal.Pos d => uint_string d
  | Decimal.Neg d => "-" ++ uint_string d
  end.

(** [keyframes_str = "f,".join(...) + "f"]. *)
Definition keyframes_str (kf : list Z) : string :=
  concat "f," (map z_string kf) ++ "f".

Definition keyframes_cfg_file : string := "svt_av1_keyframes.cfg".

Definition keyframes_cfg (kf : list Z) : string :=
  "ForceKeyFrames : " ++ keyframes_str kf ++ String (Ascii.ascii_of_nat 10) "".

(** [generate_qp_file]: the store holds text files; [keyframes] stands for
    [generate_keyframes(clip, start_frame)]. *)
Definition qp_name (start_frame : Z) : string :=
  "qpfile_" ++ z_string start_frame ++ ".txt".

Definition qp_text (kf : list Z) : string :=
  concat "" (map (fun i => z_string i ++ " I -1" ++
                           String (Ascii.ascii_of_nat 10) "") kf).

Definition generate_qp_file (keyframes : Z -> list Z) (start_frame : Z)
    (fs : store string) : string * store string * bool :=
  let filepath := qp_name start_frame in
  match lookup fs filepath with
  | Some _ => (filepath, fs, false)
  | None =>
      let out := qp_text (keyframes start_frame) in
      (* write the temp file, then [temp.rename(filepath)] *)
      (filepath, save fs filepath out, true)
  end.

End Cache.

(* ------------------------------------------------------------------ *)
(** ** Properties used in the statements about the aligner *)

Module AlignerSpec.
Import Aligner.

(** Every gap between consecutive elements lies in [[lo, hi]]. *)
Fixpoint gaps_ok (lo hi : Z) (l : list Z) : Prop :=
  match l with
  | x :: ((y :: _) as t) => lo <= y - x <= hi /\ gaps_ok lo hi t
  | _ => True
  end.

Definition len (F : list Z) : Z := Z.of_nat (length F).

(** The loop input: WWXD frames with [len(clip)] appended. *)
Definition frames_wf (n : Z) (F : list Z) : Prop :=
  StronglySorted Z.lt F /\ Forall (fun x => 1 <= x <= n) F /\ F <> [] /\
  get F (len F - 1) = n.

(** Keyword arguments for which [sliding_window_view] always has 25
    samples and the still-scene bound is a scene bound; the defaults are
    such. *)
Definition valid (P : params) : Prop :=
  1 <= min_scene_length P <= min_still_scene_length P /\
  min_still_scene_length P + 24 <= max_scene_length P.

Definition running (F : list Z) (st : state) : Prop := head st < len F - 1.

(** Loop invariant: the frames not consumed yet lie after [current_frame],
    whose list of cuts so far ends in [current_frame]. *)
Definition inv (P : params) (F : list Z) (st : state) : Prop :=
  -1 <= head st <= len F - 1 /\
  0 <= current_frame st /\
  (forall k, head st < k < len F -> current_frame st < get F k) /\
  svt_av1_frames st <> [] /\ hd 0 (svt_av1_frames st) = 0 /\
  last (svt_av1_frames st) 0 = current_frame st /\
  gaps_ok (min_scene_length P) (max_scene_length P) (svt_av1_frames st).

(** What is returned after the pop. *)
Definition out_ok (P : params) (n : Z) (out0 : list Z) : Prop :=
  out0 <> [] /\ hd 0 out0 = 0 /\
  gaps_ok (min_scene_length P) (max_scene_length P) out0 /\
  0 < n - last out0 0 <= max_scene_length P.

(** The loop has ended, and its last cut is the sentinel [n]. *)
Definition final (P : params) (n : Z) (F : list Z) (st : state) : Prop :=
  head st = len F - 1 /\
  exists out0, svt_av1_frames st = out0 ++ [n] /\ out_ok P n out0.

Definition measure (n : Z) (F : list Z) (st : state) : Z :=
  (len F - 1 - head st) + (n - current_frame st).

(** The spec's search, in words: the first structure of [structs] that
    some candidate matches decides, and among the candidates it matches
    the latest one wins; with no match at all, [dflt] is taken. *)
Definition choice (structs : list Z) (cur : Z) (cands : list Z) (dflt c : Z)
  : Prop :=
  (exists pre s post i,
     structs = pre ++ s :: post /\
     (forall s', In s' pre -> forall a, In a cands -> (a - cur) mod s' <> 1) /\
     (i < length cands)%nat /\ nth i cands 0 = c /\ (c - cur) mod s = 1 /\
     (forall j, (i < j < length cands)%nat -> (nth j cands 0 - cur) mod s <> 1))
  \/
  ((forall s, In s structs -> forall a, In a cands -> (a - cur) mod s <> 1) /\
   c = dflt).

End AlignerSpec.

(* ------------------------------------------------------------------ *)
(** ** The states the [while] loop passes through *)

Module AlignerTrace.
Import Aligner.

(** [steps_to P n diff F st st']: from [st], iterations of the loop body
    (each taken while [head < len(frames) - 1]) lead to [st']. *)
Inductive steps_to (P : params) (n : Z) (diff : Z -> Q) (F : list Z)
  : state -> state -> Prop :=
| steps_refl st : steps_to P n diff F st st
| steps_next st st1 st' :
    (head st <? Z.of_nat (length F) - 1) = true ->
    step P n diff F st = Some st1 ->
    steps_to P n diff F st1 st' ->
    steps_to P n diff F st st'.

(** [st] is a state of the loop run by [generate_svt_av1_keyframes]. *)
Definition reached (P : params) (sc : list bool) (diff : Z -> Q) (st : state) : Prop :=
  steps_to P (Z.of_nat (length sc)) diff (all_frames sc) init_state st.

End AlignerTrace.

(** Concrete inputs of the aligner used below. *)
Module AlignerInputs.
Import Aligner.

Definition zero_diff : Z -> Q := fun _ => 0%Q.

(** 100 frames, one WWXD cut at frame 50. *)
Definition sc_one_short_hint : list bool :=
  repeat false 50 ++ [true] ++ repeat false 49.

(** 200 frames without any WWXD cut. *)
Definition sc_no_hint_200 : list bool := repeat false 200.

(** 300 frames without any WWXD cut. *)
Definition sc_no_hint_300 : list bool := repeat false 300.

(** 400 frames with WWXD cuts at 129 and 170. *)
Definition sc_129_170 : list bool :=
  map (fun i => Nat.eqb i 129 || Nat.eqb i 170) (seq 0 400).

(** 60 frames with WWXD cuts at 17 and 33. *)
Definition sc_17_33 : list bool :=
  map (fun i => Nat.eqb i 17 || Nat.eqb i 33) (seq 0 60).

Definition params_small : params :=
  {| min_scene_length := 10; min_still_scene_length := 12;
     max_scene_length := 40 |}.

End AlignerInputs.

(* ================================================================== *)
(** Parts of an interrupted encode of [encoded.265]. *)
Module RecoveryInputs.
Import Files Recovery String.

Definition part_path (n : string) : path :=
  {| pstem := "encoded_part_" ++ n; psuffix := ".265" |}.

Definition p000 : part := {| part_file := part_path "000"; probe := Some [0; 60; 120] |}.
Definition p001 : part := {| part_file := part_path "001"; probe := Some [0; 48; 96] |}.
(** The part the interrupted run was still writing: only its first I frame. *)
Definition p002_fresh : part := {| part_file := part_path "002"; probe := Some [0] |}.


Definition parts3 : list part := [p000; p001; p002_fresh].
Definition files3 : list path := map part_file parts3.

End RecoveryInputs.

(** External processes for [merge_parts]. *)
Module MergeInputs.
Import Files Merge String.

Definition m_part : path := {| pstem := "encoded_part_000"; psuffix := ".265" |}.
Definition m_last : path := {| pstem := "encoded_part_001"; psuffix := ".265" |}.
Definition m_out : path := {| pstem := "encoded"; psuffix := ".265" |}.

(** The files a command writes. *)
Definition cmd_output (c : cmd) : list path :=
  match c with
  | MkvSplit o _ _ => [split_name o "-001"; split_name o "-002"]
  | MkvRemux o _ => [o]
  | MkvAppend o _ => [o]
  | MkvExtract _ o => [o]
  end.

(** Every command succeeds. *)
Definition ok_runner : runner := fun c fs => (0, cmd_output c ++ fs).

(** [mkvextract] writes part of the track to its output, then fails. *)
Definition partial_extract_runner : runner := fun c fs =>
  match c with
  | MkvExtract _ o => (2, o :: fs)
  | _ => (0, cmd_output c ++ fs)
  end.

Definition world0 : world := {| files := [m_part; m_last]; invoked := [] |}.
Definition world_last : world := {| files := [m_last]; invoked := [] |}.

End MergeInputs.

(* ------------------------------------------------------------------ *)
(** ** Reading the I frames of a part ([parse_keyframes]) *)

Module Probe.
Import Ascii String.

(** Python's [str.isspace] on an ASCII character: [\t \n \v \f \r],
    [\x1c]..[\x1f] and the space. *)
Definition is_space (c : ascii) : bool :=
  let k := nat_of_ascii c in
  ((9 <=? k) && (k <=? 13))%nat || ((28 <=? k) && (k <=? 32))%nat.

(** The ASCII line boundaries of [str.splitlines]: [\n \v \f \r] and
    [\x1c \x1d \x1e]; [\r\n] is one boundary. *)
Definition is_linebreak (c : ascii) : bool :=
  let k := nat_of_ascii c in
  ((10 <=? k) && (k <=? 13))%nat || ((28 <=? k) && (k <=? 30))%nat.

Definition cr : ascii := ascii_of_nat 13.
Definition lf : ascii := ascii_of_nat 10.

(** [s.splitlines()], [cur] holding the current line reversed. *)
Fixpoint splitlines_from (s cur : list ascii) : list (list ascii) :=
  match s with
  | [] => match cur with [] => [] | _ => [rev cur] end
  | c :: t =>
      if Ascii.eqb c cr then
        match t with
        | c' :: t' =>
            if Ascii.eqb c' lf then rev cur :: splitlines_from t' []
            else rev cur :: splitlines_from t []
        | [] => [rev cur]
        end
      else if is_linebreak c then rev cur :: splitlines_from t []
      else splitlines_from t (c :: cur)
  end.

Definition splitlines (s : list ascii) : list (list ascii) := splitlines_from s [].

Fixpoint lstrip (l : list ascii) : list ascii :=
  match l with
  | c :: t => if is_space c then lstrip t else l
  | [] => []
  end.

(** [line.strip()]. *)
Definition strip (l : list ascii) : list ascii := rev (lstrip (rev (lstrip l))).

Fixpoint prefixb (p l : list ascii) : bool :=
  match p, l with
  | [], _ => true
  | a :: p', b :: l' => Ascii.eqb a b && prefixb p' l'
  | _ :: _, [] => false
  end.

Definition eq_sign : ascii := "="%char.

(** The characters up to the next ["="]. *)
Fixpoint take_field (l : list ascii) : list ascii :=
  match l with
  | [] => []
  | c :: t => if Ascii.eqb c eq_sign then [] else c :: take_field t
  end.

(** [line.split("=")[1]]: [None] is the [IndexError] of a line without
    ["="]. *)
Fixpoint field1 (l : list ascii) : option (list ascii) :=
  match l with
  | [] => None
  | c :: t => if Ascii.eqb c eq_sign then Some (take_field t) else field1 t
  end.

Definition pict_type : list ascii := String.list_ascii_of_string "pict_type"%string.
Definition letter_I : list ascii := ["I"%char].

Definition list_ascii_eqb (a b : list ascii) : bool :=
  if list_eq_dec ascii_dec a b then true else false.

(** The [for line in out.stdout.splitlines()] loop; [None] when it
    raises. *)
Fixpoint parse_lines (ls : list (list ascii)) (current : Z) (frames : list Z)
  : option (list Z) :=
  match ls with
  | [] => Some frames
  | l0 :: t =>
      let line := strip l0 in
      if prefixb pict_type line then
        match field1 line with
        | None => None
        | Some f =>
            if list_ascii_eqb f letter_I then parse_lines t (current + 1) (frames ++ [current])
            else parse_lines t (current + 1) frames
        end
      else parse_lines t current frames
  end.

(** [parse_keyframes] on the standard output of
    [ffprobe -select_streams v -show_frames -show_entries frame=pict_type]
    for a file that exists ([ensure_path_exists] raises otherwise). *)
Definition parse_keyframes (stdout : list ascii) : option (list Z) :=
  parse_lines (splitlines stdout) 0 [].

(** A line that counts as a frame: it starts with [pict_type] once
    stripped. *)
Definition is_frame_line (l : list ascii) : bool := prefixb pict_type (strip l).

(** The characters of a picture type as ffprobe prints it. *)
Definition good_char (c : ascii) : Prop := is_space c = false /\ c <> eq_sign.

(** The block ffprobe prints for one frame of picture type [t]. *)
Definition ffprobe_frame (t : list ascii) : list ascii :=
  String.list_ascii_of_string "[FRAME]"%string ++ [lf] ++ pict_type ++ [eq_sign] ++ t ++ [lf] ++
  String.list_ascii_of_string "[/FRAME]"%string ++ [lf].

(** The indices, from [k], of the frames of picture type [I]. *)
Fixpoint i_frames (ts : list (list ascii)) (k : Z) : list Z :=
  match ts with
  | [] => []
  | t :: r => (if list_ascii_eqb t letter_I then [k] else []) ++ i_frames r (k + 1)
  end.

End Probe.

(* ------------------------------------------------------------------ *)
(** ** [generate_keyframes(clip, start_frame)] *)

Module Keyframes.
Import Aligner.

(** [sc] is the [Scenechange] flag WWXD gives each frame of the whole
    clip (computed before [clip[start_frame:]], so frame [i] of the
    trimmed clip carries the flag of frame [start_frame + i]). [None] is
    the error of [clip[start_frame:]] when [start_frame] is at or past the
    last frame ([std.Trim] refuses a first frame past the last one). *)
Definition generate_keyframes_at (sc : list bool) (start_frame : nat) : option (list Z) :=
  if Nat.eqb start_frame 0 then Some (generate_keyframes sc)
  else if Nat.ltb start_frame (length sc) then Some (generate_keyframes (skipn start_frame sc))
  else None.

End Keyframes.

(* ------------------------------------------------------------------ *)
(** ** Part file names ([SupportsQP.encode]) *)

Module PartNames.
Import Ascii.
Local Open Scope nat_scope.

Definition digit_char (d : nat) : ascii := ascii_of_nat (48 + d).

(** The decimal digits of [n], least significant first. *)
Fixpoint digits_rev (fuel n : nat) : list ascii :=
  match fuel with
  | O => []
  | S f => digit_char (n mod 10) :: (if n <? 10 then [] else digits_rev f (n / 10))
  end.

Definition decimal (n : nat) : list ascii := rev (digits_rev (S n) n).

(** [f"{n:03.0f}"] for a count [n]: its digits, zero padded to 3. *)
Definition format_03 (n : nat) : list ascii :=
  repeat "0"%char (3 - length (decimal n)) ++ decimal n.

Definition part_infix : list ascii := ["_"; "p"; "a"; "r"; "t"; "_"]%char.

(** [out.with_stem(out.stem + "_part_???")].name *)
Definition part_glob (stem suffix : list ascii) : list ascii :=
  stem ++ part_infix ++ ["?"; "?"; "?"]%char ++ suffix.

(** [out.with_stem(out.stem + f"_part_{n:03.0f}")].name *)
Definition part_name (stem suffix : list ascii) (n : nat) : list ascii :=
  stem ++ part_infix ++ format_03 n ++ suffix.

(** [Path.glob] on one name, for a pattern without [*] and [[]]: [?]
    matches one character other than [/], any other character itself. *)
Fixpoint wild_match (pat s : list ascii) : bool :=
  match pat, s with
  | [], [] => true
  | p :: pt, c :: st =>
      (if Ascii.eqb p "?"%char then negb (Ascii.eqb c "/"%char) else Ascii.eqb p c)
      && wild_match pt st
  | _, _ => false
  end.

(** The order of [sorted()] on names of one directory: code points,
    lexicographically. *)
Fixpoint lex_compare (a b : list ascii) : comparison :=
  match a, b with
  | [], [] => Eq
  | [], _ :: _ => Lt
  | _ :: _, [] => Gt
  | x :: a', y :: b' =>
      match Nat.compare (nat_of_ascii x) (nat_of_ascii y) with
      | Eq => lex_compare a' b'
      | c => c
      end
  end.

Definition glob_safe (c : ascii) : Prop := c <> "*"%char /\ c <> "["%char /\ c <> "/"%char.

End PartNames.

(* ------------------------------------------------------------------ *)
(** ** [FFMpegEncoder._pixfmt_for_clip] *)

Module PixFmt.
Import Ascii String.
Local Open Scope nat_scope.

Inductive color_family := GRAY | RGB | YUV | UNDEFINED.

Record video_format := {
  color_family_of : color_family;
  bits_per_sample : nat;
  fmt_name : list ascii   (** [videoformat.name], e.g. [YUV420P10] *)
}.

(** [str.lower] on ASCII. *)
Definition lower_char (c : ascii) : ascii :=
  let k := nat_of_ascii c in
  if ((65 <=? k) && (k <=? 90))%nat then ascii_of_nat (k + 32) else c.

Definition lower (l : list ascii) : list ascii := map lower_char l.

Fixpoint prefixb (p l : list ascii) : bool :=
  match p, l with
  | [], _ => true
  | a :: p', b :: l' => Ascii.eqb a b && prefixb p' l'
  | _ :: _, [] => false
  end.

(** [s.replace(old, new)] for a non-empty [old], left to right, without
    overlaps; [fuel] is at least [len(s)]. *)
Fixpoint replace_fuel (fuel : nat) (old new s : list ascii) : list ascii :=
  match fuel with
  | O => s
  | S f =>
      match s with
      | [] => []
      | c :: t =>
          if prefixb old s then new ++ replace_fuel f old new (skipn (List.length old) s)
          else c :: replace_fuel f old new t
      end
  end.

Definition str_replace (old new s : list ascii) : list ascii :=
  replace_fuel (List.length s) old new s.

(** [range(8, 18, 2)] *)
Definition allowed_depths : list nat := [8; 10; 12; 14; 16]%nat.

Definition str_P8 : list ascii := ["P"; "8"]%char.
Definition str_P : list ascii := ["P"]%char.
Definition str_le : list ascii := ["l"; "e"]%char.

(** [inl msg] is the raised [error(msg)]. *)
Definition pixfmt_for_clip (vf : video_format) : String.string + list ascii :=
  match color_family_of vf with
  | YUV =>
      if existsb (Nat.eqb (bits_per_sample vf)) allowed_depths then
        let formatname := lower (str_replace str_P8 str_P (fmt_name vf)) in
        inr (if (8 <? bits_per_sample vf)%nat then formatname ++ str_le else formatname)
      else inl "Only the following bitdepths are allowed: 8, 10, 12, 14, 16"%string
  | _ => inl "Only YUV input allowed for FFMPEG pipes/encoders!"%string
  end.

Definition is_digit (c : ascii) : Prop := (48 <= nat_of_ascii c <= 57)%nat.

End PixFmt.

(* ------------------------------------------------------------------ *)
(** ** What [merge_parts] runs *)

Module MergeSpec.
Import Files Merge String.

(** The commands of a merge that has earlier parts, in order. *)
Definition merge_commands (last original_out : path) (keyframes : list Z)
    (parts : list path) : list cmd :=
  map (fun kp => MkvSplit (with_suffix (snd kp) ".mkv"%string) (fst kp) (snd kp))
      (combine keyframes parts) ++
  [MkvRemux (with_suffix last ".mkv"%string) last;
   MkvAppend (with_suffix original_out ".mkv"%string)
             (part_firsts (combine keyframes parts) ++ [with_suffix last ".mkv"%string]);
   MkvExtract (with_suffix original_out ".mkv"%string) original_out].

(** The files a command reads. *)
Definition cmd_inputs (c : cmd) : list path :=
  match c with
  | MkvSplit _ _ i => [i]
  | MkvRemux _ i => [i]
  | MkvAppend _ is => is
  | MkvExtract i _ => [i]
  end.

End MergeSpec.

(* ------------------------------------------------------------------ *)
(** ** Where the cuts of [generate_svt_av1_keyframes] come from *)

Module AlignerOrigin.
Import Aligner.

(** [R] holds for every two consecutive elements. *)
Fixpoint adjacent_ok (R : Z -> Z -> Prop) (l : list Z) : Prop :=
  match l with
  | x :: ((y :: _) as t) => R x y /\ adjacent_ok R t
  | _ => True
  end.

(** A cut [b] after the cut [a] is a WWXD scene change, or lies at least
    [min_still_scene_length] after [a]. *)
Definition hint_or_still (P : params) (sc : list bool) (a b : Z) : Prop :=
  In b (generate_keyframes sc) \/ min_still_scene_length P <= b - a.

End AlignerOrigin.

(** * Proofs *)

Module AlignerFacts.
Import Aligner AlignerSpec.

Lemma gaps_ok_snoc lo hi l x :
  gaps_ok lo hi l -> l <> [] -> lo <= x - last l 0 <= hi ->
  gaps_ok lo hi (l ++ [x]).
Proof.
  induction l as [|a t IH]; intros Hg Hne Hx; [congruence|].
  destruct t as [|b t'].
  - simpl in *. tauto.
  - simpl in Hg. destruct Hg as [Hab Hg].
    change ((a :: b :: t') ++ [x]) with (a :: ((b :: t') ++ [x])).
    simpl. split; [exact Hab|].
    apply IH; [exact Hg | discriminate | exact Hx].
Qed.

Lemma hd_snoc (l : list Z) x : l <> [] -> hd 0 (l ++ [x]) = hd 0 l.
Proof. destruct l; [congruence | reflexivity]. Qed.

Lemma sorted_nth (F : list Z) :
  StronglySorted Z.lt F ->
  forall i j, (i < j < length F)%nat -> nth i F 0 < nth j F 0.
Proof.
  induction F as [|a F IH]; intros Hs i j Hij; simpl in Hij; [lia|].
  apply StronglySorted_inv in Hs as [Hs Hf].
  destruct i, j; simpl; try lia.
  - rewrite Forall_forall in Hf. apply Hf, nth_In. lia.
  - apply IH; [exact Hs | lia].
Qed.

Lemma get_lt F i j :
  StronglySorted Z.lt F -> 0 <= i < j -> j < len F -> get F i < get F j.
Proof. unfold get, len. intros Hs Hi Hj. apply sorted_nth; [exact Hs | lia]. Qed.

Lemma get_le F i j :
  StronglySorted Z.lt F -> 0 <= i <= j -> j < len F -> get F i <= get F j.
Proof.
  intros Hs Hi Hj. destruct (Z.eq_dec i j) as [->|Hne]; [lia|].
  apply Z.lt_le_incl, get_lt; [exact Hs | lia | exact Hj].
Qed.

Lemma get_In F k : 0 <= k < len F -> In (get F k) F.
Proof. unfold get, len. intros Hk. apply nth_In. lia. Qed.

Lemma take_within_nth mx cur l i :
  (i < length (take_within mx cur l))%nat ->
  nth i (take_within mx cur l) 0 = nth i l 0.
Proof.
  revert i. induction l as [|f t IH]; intros i Hi; simpl in *; [lia|].
  destruct (f - cur <=? mx); simpl in *; [|lia].
  destruct i; [reflexivity|]. apply IH. lia.
Qed.

Lemma take_within_bound mx cur l i :
  (i < length (take_within mx cur l))%nat ->
  nth i (take_within mx cur l) 0 - cur <= mx.
Proof.
  revert i. induction l as [|f t IH]; intros i Hi; simpl in *; [lia|].
  destruct (f - cur <=? mx) eqn:E; simpl in *; [|lia].
  destruct i; [apply Z.leb_le; exact E|]. apply IH. lia.
Qed.

Lemma take_within_length mx cur l :
  (length (take_within mx cur l) <= length l)%nat.
Proof.
  induction l as [|f t IH]; simpl; [lia|].
  destruct (f - cur <=? mx); simpl; lia.
Qed.

Lemma scan_down_lt p l k i : scan_down p l k = Some i -> (i < k)%nat.
Proof.
  induction k as [|k IH]; simpl; [discriminate|].
  destruct (p (nth k l 0)); [intros [= <-]; lia | intros H; apply IH in H; lia].
Qed.

Lemma search_structures_lt ss avail cur i :
  search_structures ss avail cur = Some i -> (i < length avail)%nat.
Proof.
  induction ss as [|s ss IH]; simpl; [discriminate|].
  destruct (scan_down (aligned cur s) avail (length avail)) eqn:E.
  - intros [= <-]. eapply scan_down_lt; exact E.
  - exact IH.
Qed.

Lemma search_motion_In ss m cur f : search_motion ss m cur = Some f -> In f m.
Proof.
  induction ss as [|s ss IH]; simpl; [discriminate|].
  destruct (scan_down (aligned cur s) m (length m)) eqn:E.
  - intros [= <-]. apply nth_In. eapply scan_down_lt; exact E.
  - exact IH.
Qed.

Lemma flagged_from_range ds ts i x :
  In x (flagged_from i ds ts) -> (i <= x < i + length ds)%nat.
Proof.
  revert ts i. induction ds as [|d ds IH]; intros ts i; simpl; [tauto|].
  destruct ts as [|t ts]; [simpl; tauto|].
  destruct (qlt t d); simpl.
  - intros [->|H]; [lia|]. apply IH in H. lia.
  - intros H. apply IH in H. lia.
Qed.

Lemma fallback_diffs_length P n diff cur :
  0 <= cur + min_still_scene_length P ->
  min_still_scene_length P <= max_scene_length P + 1 ->
  cur + max_scene_length P < n ->
  length (fallback_diffs P n diff cur) =
    Z.to_nat (max_scene_length P - min_still_scene_length P + 1).
Proof.
  intros H1 H2 H3. unfold fallback_diffs, clip_slice.
  rewrite length_map, length_map, length_seq. f_equal. lia.
Qed.

Lemma motion_frames_range P n diff cur f :
  In f (motion_frames P n diff cur) ->
  cur + min_still_scene_length P <= f /\
  f < cur + min_still_scene_length P + Z.of_nat (length (fallback_diffs P n diff cur)).
Proof.
  unfold motion_frames. intros Hf. apply in_map_iff in Hf as [i [<- Hi]].
  apply flagged_from_range in Hi. lia.
Qed.

Lemma fallback_range P n diff cur :
  valid P -> 0 <= cur -> cur + max_scene_length P < n ->
  exists s, fallback P n diff cur = Some s /\
            cur + min_still_scene_length P <= s <= cur + max_scene_length P.
Proof.
  intros [Hv1 Hv2] Hc Hn.
  pose proof (fallback_diffs_length P n diff cur ltac:(lia) ltac:(lia) Hn) as Hl.
  unfold fallback.
  replace ((length (fallback_diffs P n diff cur) <? 25)%nat) with false
    by (symmetry; apply Nat.ltb_ge; lia).
  destruct (match motion_frames P n diff cur with
            | [] => None
            | _ => search_motion [32; 16; 8] (motion_frames P n diff cur) cur
            end) as [f|] eqn:E.
  - exists f. split; [reflexivity|].
    destruct (motion_frames P n diff cur) eqn:Em; [discriminate|].
    rewrite <- Em in E. apply search_motion_In, motion_frames_range in E. lia.
  - exists (cur + max_scene_length P). split; [reflexivity | lia].
Qed.

Ltac zlia := unfold len in *; lia.

Lemma step_progress P n diff F st :
  valid P -> frames_wf n F -> inv P F st -> running F st ->
  exists st', step P n diff F st = Some st' /\
    ((running F st' /\ inv P F st' /\ measure n F st' < measure n F st) \/
     final P n F st').
Proof.
  intros HP HF Hi Hr.
  destruct HP as [[Hm1 Hm2] Hm3].
  destruct HF as [Hs [Hb [Hne Hlast]]].
  destruct Hi as [Hh [Hc [Hk [Ho1 [Ho2 [Ho3 Ho4]]]]]].
  unfold running in Hr.
  unfold step. cbv zeta.
  set (h := head st + 1).
  set (cur := current_frame st) in *.
  assert (Hhdef : h = head st + 1) by reflexivity.
  assert (Hcdef : cur = current_frame st) by reflexivity.
  clearbody h cur.
  assert (Hh0 : 0 <= h <= len F - 1) by zlia.
  assert (Hcf : cur < get F h) by (apply Hk; zlia).
  assert (Hfn : get F h <= n).
  { rewrite Forall_forall in Hb. apply Hb, get_In. zlia. }
  destruct (get F h - cur <? min_scene_length P) eqn:E1.
  - apply Z.ltb_lt in E1.
    destruct (negb (h =? Z.of_nat (length F) - 1)) eqn:E2.
    + apply negb_true_iff, Z.eqb_neq in E2.
      eexists; split; [reflexivity|]. left.
      unfold running, inv, measure; simpl. fold (len F) in E2.
      split; [zlia|]. split; [|zlia].
      split; [zlia|]. split; [zlia|].
      split; [intros k Hk'; apply Hk; zlia|].
      tauto.
    + apply negb_false_iff, Z.eqb_eq in E2. fold (len F) in E2.
      eexists; split; [reflexivity|]. right.
      unfold final; simpl. split; [zlia|].
      exists (svt_av1_frames st). rewrite E2, Hlast. split; [reflexivity|].
      unfold out_ok. rewrite Ho3. rewrite E2, Hlast in Hcf, E1.
      repeat split; try assumption; zlia.
  - apply Z.ltb_ge in E1.
    destruct (get F h - cur <=? max_scene_length P) eqn:E3.
    + apply Z.leb_le in E3.
      set (avail := take_within (max_scene_length P) cur (skipn (Z.to_nat h) F)).
      assert (Havail : (0 < length avail)%nat).
      { unfold avail. destruct (skipn (Z.to_nat h) F) as [|z t] eqn:Es.
        - apply (f_equal (@length Z)) in Es. rewrite length_skipn in Es.
          simpl in Es. unfold len in Hh0. zlia.
        - pose proof (nth_skipn (Z.to_nat h) F 0 0) as Hz.
          rewrite Es, Nat.add_0_r in Hz. simpl in Hz. fold (get F h) in Hz.
          subst z. simpl. replace (get F h - cur <=? max_scene_length P) with true
            by (symmetry; apply Z.leb_le; exact E3). simpl. zlia. }
      assert (Hla : (length avail <= length F - Z.to_nat h)%nat).
      { unfold avail. rewrite <- length_skipn. apply take_within_length. }
      assert (Hsel : exists sel,
                 match search_structures [32; 16; 8; 4; 2] avail cur with
                 | Some i => i
                 | None => (length avail - 1)%nat
                 end = sel /\ (sel < length avail)%nat).
      { destruct (search_structures [32; 16; 8; 4; 2] avail cur) as [i|] eqn:Ess.
        - exists i. split; [reflexivity|]. eapply search_structures_lt; exact Ess.
        - exists (length avail - 1)%nat. split; [reflexivity | zlia]. }
      destruct Hsel as [sel [-> Hsl]].
      set (c := get F (h + Z.of_nat sel)).
      assert (Hceq : c = nth sel avail 0).
      { unfold c, get. rewrite Z2Nat.inj_add, Nat2Z.id by zlia.
        unfold avail. rewrite take_within_nth by exact Hsl.
        rewrite nth_skipn. reflexivity. }
      assert (Hcmax : c - cur <= max_scene_length P).
      { rewrite Hceq. apply take_within_bound. exact Hsl. }
      assert (Hbound : h + Z.of_nat sel <= len F - 1) by (unfold len in *; zlia).
      assert (Hcmin : get F h <= c) by (apply get_le; [exact Hs | zlia | zlia]).
      eexists; split; [reflexivity|]. fold c.
      destruct (Z.eq_dec (h + Z.of_nat sel) (len F - 1)) as [Heq|Hneq].
      * right. unfold final; simpl. split; [exact Heq|].
        assert (Hcn : c = n) by (unfold c; rewrite Heq; exact Hlast).
        exists (svt_av1_frames st). rewrite <- Hcn. split; [reflexivity|].
        unfold out_ok. rewrite Ho3. repeat split; try assumption; zlia.
      * left. unfold running, inv, measure; simpl.
        split; [zlia|]. split; [|zlia]. split; [zlia|]. split; [zlia|].
        split; [intros k Hk'; apply get_lt; [exact Hs | zlia | zlia]|].
        split; [destruct (svt_av1_frames st); discriminate|].
        split; [rewrite hd_snoc; assumption|].
        split; [apply last_last|].
        apply gaps_ok_snoc; [assumption | assumption | rewrite Ho3; zlia].
    + apply Z.leb_gt in E3.
      destruct (fallback_range P n diff cur (conj (conj Hm1 Hm2) Hm3) Hc
                  ltac:(zlia)) as [s0 [Hfb Hsr]].
      rewrite Hfb. eexists; split; [reflexivity|]. left.
      unfold running, inv, measure; simpl.
      split; [zlia|]. split; [|zlia]. split; [zlia|]. split; [zlia|].
      split.
      { intros k Hk'. assert (get F h <= get F k) by (apply get_le; [exact Hs | zlia | zlia]).
        zlia. }
      split; [destruct (svt_av1_frames st); discriminate|].
      split; [rewrite hd_snoc; assumption|].
      split; [apply last_last|].
      apply gaps_ok_snoc; [assumption | assumption | rewrite Ho3; zlia].
Qed.

Lemma loop_final P n diff F :
  valid P -> frames_wf n F ->
  forall fuel st, inv P F st -> running F st -> measure n F st < Z.of_nat fuel ->
  exists st', loop P n diff F fuel st = Some st' /\ final P n F st'.
Proof.
  intros HP HF. induction fuel as [|k IH]; intros st Hi Hr Hm.
  - exfalso. destruct HF as [_ [_ [_ Hlast]]]. destruct Hi as [_ [_ [Hk _]]].
    unfold running, measure in *.
    assert (current_frame st < get F (len F - 1)) by (apply Hk; zlia). zlia.
  - simpl. replace (head st <? Z.of_nat (length F) - 1) with true
      by (symmetry; apply Z.ltb_lt; unfold running in Hr; zlia).
    destruct (step_progress P n diff F st HP HF Hi Hr)
      as [st' [-> [[Hr' [Hi' Hm']] | Hf]]].
    + apply IH; [exact Hi' | exact Hr' | zlia].
    + exists st'. split; [|exact Hf]. destruct Hf as [Hh _].
      destruct k; simpl;
        (replace (head st' <? Z.of_nat (length F) - 1) with false
           by (symmetry; apply Z.ltb_ge; zlia)); reflexivity.
Qed.

Lemma filter_seq_sorted (p : nat -> bool) k s :
  StronglySorted Z.lt (map Z.of_nat (filter p (seq s k))) /\
  Forall (fun x => Z.of_nat s <= x < Z.of_nat (s + k))
         (map Z.of_nat (filter p (seq s k))).
Proof.
  revert s. induction k as [|k IH]; intros s; simpl.
  - split; constructor.
  - destruct (IH (S s)) as [H1 H2].
    destruct (p s); simpl.
    + split.
      * constructor; [exact H1|].
        eapply Forall_impl; [|exact H2]. intros x Hx; cbv beta in *; lia.
      * constructor; [lia|]. eapply Forall_impl; [|exact H2]. intros x Hx; cbv beta in *; lia.
    + split; [exact H1|]. eapply Forall_impl; [|exact H2]. intros x Hx; cbv beta in *; lia.
Qed.

Lemma ssorted_snoc (l : list Z) y :
  StronglySorted Z.lt l -> Forall (fun x => x < y) l ->
  StronglySorted Z.lt (l ++ [y]).
Proof.
  induction l as [|a t IH]; intros Hs Hf; simpl.
  - repeat constructor.
  - apply StronglySorted_inv in Hs as [Hs Ha]. inversion Hf; subst.
    constructor; [apply IH; assumption|].
    apply Forall_app. split; [exact Ha | repeat constructor; assumption].
Qed.

Lemma all_frames_wf sc :
  sc <> [] -> frames_wf (Z.of_nat (length sc)) (all_frames sc).
Proof.
  intros Hne.
  assert (Hl : (1 <= length sc)%nat) by (destruct sc; [congruence | simpl; lia]).
  unfold all_frames, generate_keyframes.
  destruct (filter_seq_sorted (fun i => nth i sc false) (length sc - 1) 1)
    as [H1 H2].
  set (g := map Z.of_nat (filter (fun i => nth i sc false) (seq 1 (length sc - 1)))) in *.
  unfold frames_wf. split; [|split; [|split]].
  - apply ssorted_snoc; [exact H1|].
    eapply Forall_impl; [|exact H2]. intros x Hx; cbv beta in *; lia.
  - apply Forall_app. split.
    + eapply Forall_impl; [|exact H2]. intros x Hx; cbv beta in *; lia.
    + constructor; [lia | constructor].
  - intros H. apply app_eq_nil in H. destruct H as [_ H]. discriminate.
  - unfold get, len. rewrite length_app. simpl.
    replace (Z.to_nat (Z.of_nat (length g + 1) - 1)) with (length g) by lia.
    apply nth_middle.
Qed.

Lemma init_inv P n F : frames_wf n F -> inv P F init_state /\ running F init_state.
Proof.
  intros [Hs [Hb [Hne Hlast]]].
  assert (1 <= len F) by (unfold len; destruct F; [congruence | simpl; lia]).
  unfold inv, running, init_state; simpl.
  split; [|lia].
  split; [lia|]. split; [lia|].
  split; [|repeat split; discriminate].
  intros k Hk. rewrite Forall_forall in Hb.
  assert (1 <= get F k) by (apply Hb, get_In; lia). lia.
Qed.

Lemma valid_defaults : valid defaults.
Proof. unfold valid; simpl; lia. Qed.

Lemma run_final P sc diff :
  valid P -> sc <> [] ->
  exists st, run P sc diff = Some st /\
             final P (Z.of_nat (length sc)) (all_frames sc) st.
Proof.
  intros HP Hne. pose proof (all_frames_wf sc Hne) as HF.
  destruct (init_inv P _ _ HF) as [Hi Hr].
  unfold run. apply loop_final; [exact HP | exact HF | exact Hi | exact Hr |].
  unfold measure, init_state; simpl. zlia.
Qed.

Lemma generate_out_ok P sc diff :
  valid P -> sc <> [] ->
  exists kfs, generate_svt_av1_keyframes P sc diff = Some kfs /\
              out_ok P (Z.of_nat (length sc)) kfs.
Proof.
  intros HP Hne. destruct (run_final P sc diff HP Hne) as [st [Hrun [_ [o [Ho Hok]]]]].
  exists o. unfold generate_svt_av1_keyframes. rewrite Hrun, Ho, removelast_last.
  split; [reflexivity | exact Hok].
Qed.

Lemma gaps_Sorted lo hi l : 1 <= lo -> gaps_ok lo hi l -> Sorted Z.lt l.
Proof.
  intros Hlo. induction l as [|a t IH]; intros Hg; [constructor|].
  destruct t as [|b t']; [repeat constructor|].
  simpl in Hg. destruct Hg as [Hab Hg].
  constructor; [apply IH; exact Hg | constructor; lia].
Qed.

Lemma gaps_StronglySorted lo hi l :
  1 <= lo -> gaps_ok lo hi l -> StronglySorted Z.lt l.
Proof.
  intros Hlo Hg. apply Sorted_StronglySorted; [exact Z.lt_trans|].
  eapply gaps_Sorted; eassumption.
Qed.

Lemma ssorted_nodup (l : list Z) : StronglySorted Z.lt l -> NoDup l.
Proof.
  induction l as [|a t IH]; intros Hs; [constructor|].
  apply StronglySorted_inv in Hs as [Hs Hf]. constructor.
  - rewrite Forall_forall in Hf. intros Hin. specialize (Hf a Hin). lia.
  - apply IH. exact Hs.
Qed.

Lemma gaps_range lo hi a t :
  0 <= lo -> gaps_ok lo hi (a :: t) ->
  forall x, In x (a :: t) -> a <= x <= last (a :: t) 0.
Proof.
  intros Hlo. revert a. induction t as [|b t IH]; intros a Hg x Hx.
  - simpl in Hx. destruct Hx as [->|[]]. simpl. lia.
  - simpl in Hg. destruct Hg as [Hab Hg]. specialize (IH b Hg).
    change (last (a :: b :: t) 0) with (last (b :: t) 0).
    destruct Hx as [->|Hx].
    + assert (b <= last (b :: t) 0) by (apply (IH b); left; reflexivity). lia.
    + specialize (IH x Hx). lia.
Qed.

Lemma out_ok_range P n kfs :
  0 <= min_scene_length P -> out_ok P n kfs ->
  Forall (fun x => 0 <= x < n) kfs.
Proof.
  intros Hlo [Hne [Hhd [Hg Hn]]].
  destruct kfs as [|a t]; [congruence|]. simpl in Hhd. subst a.
  apply Forall_forall. intros x Hx.
  pose proof (gaps_range _ _ 0 t Hlo Hg x Hx). lia.
Qed.

Lemma scan_down_some p l k i :
  scan_down p l k = Some i ->
  p (nth i l 0) = true /\ forall j, (i < j < k)%nat -> p (nth j l 0) = false.
Proof.
  induction k as [|k IH]; simpl; [discriminate|].
  destruct (p (nth k l 0)) eqn:E.
  - intros [= <-]. split; [exact E | intros j Hj; lia].
  - intros H. destruct (IH H) as [H1 H2]. split; [exact H1|].
    intros j Hj. destruct (Nat.eq_dec j k) as [->|Hne]; [exact E|].
    apply H2. lia.
Qed.

Lemma scan_down_none p l k :
  scan_down p l k = None -> forall j, (j < k)%nat -> p (nth j l 0) = false.
Proof.
  induction k as [|k IH]; simpl; [intros _ j Hj; lia|].
  destruct (p (nth k l 0)) eqn:E; [discriminate|].
  intros H j Hj. destruct (Nat.eq_dec j k) as [->|Hne]; [exact E|].
  apply IH; [exact H | lia].
Qed.

Lemma aligned_false cur s l :
  (forall j, (j < length l)%nat -> aligned cur s (nth j l 0) = false) ->
  forall a, In a l -> (a - cur) mod s <> 1.
Proof.
  intros H a Ha. destruct (In_nth l a 0 Ha) as [j [Hj <-]].
  specialize (H j Hj). unfold aligned in H. apply Z.eqb_neq in H. exact H.
Qed.

(** The result of the nested structure loops satisfies [choice]. *)
Lemma search_choice structs cur cands dflt :
  match search_structures structs cands cur with
  | Some i => (i < length cands)%nat /\ choice structs cur cands dflt (nth i cands 0)
  | None => choice structs cur cands dflt dflt
  end.
Proof.
  induction structs as [|s ss IH]; simpl.
  - right. split; [intros s []|reflexivity].
  - destruct (scan_down (aligned cur s) cands (length cands)) as [i|] eqn:E.
    + pose proof (scan_down_lt _ _ _ _ E) as Hi.
      destruct (scan_down_some _ _ _ _ E) as [H1 H2].
      split; [exact Hi|]. left. exists [], s, ss, i.
      split; [reflexivity|]. split; [intros s' []|].
      split; [exact Hi|]. split; [reflexivity|].
      unfold aligned in H1. apply Z.eqb_eq in H1. split; [exact H1|].
      intros j Hj. specialize (H2 j Hj). unfold aligned in H2.
      apply Z.eqb_neq in H2. exact H2.
    + pose proof (aligned_false cur s cands (scan_down_none _ _ _ E)) as Hn.
      destruct (search_structures ss cands cur) as [i|].
      * destruct IH as [Hi [[pre [s0 [post [k Hc]]]] | [Hall Heq]]];
          split; try exact Hi.
        -- left. exists (s :: pre), s0, post, k.
           destruct Hc as [Hs [Hpre Hc]]. split; [rewrite Hs; reflexivity|].
           split; [|exact Hc]. intros s' [<-|Hs'] a Ha; [apply Hn; exact Ha|].
           apply (Hpre s' Hs' a Ha).
        -- right. split; [|exact Heq]. intros s' [<-|Hs'] a Ha; [apply Hn; exact Ha|].
           apply (Hall s' Hs' a Ha).
      * destruct IH as [[pre [s0 [post [k Hc]]]] | [Hall Heq]].
        -- left. exists (s :: pre), s0, post, k.
           destruct Hc as [Hs [Hpre Hc]]. split; [rewrite Hs; reflexivity|].
           split; [|exact Hc]. intros s' [<-|Hs'] a Ha; [apply Hn; exact Ha|].
           apply (Hpre s' Hs' a Ha).
        -- right. split; [|exact Heq]. intros s' [<-|Hs'] a Ha; [apply Hn; exact Ha|].
           apply (Hall s' Hs' a Ha).
Qed.

(** [search_motion] is the same search, returning the frame. *)
Lemma search_motion_structures structs m cur :
  search_motion structs m cur =
  match search_structures structs m cur with
  | Some i => Some (nth i m 0)
  | None => None
  end.
Proof.
  induction structs as [|s ss IH]; simpl; [reflexivity|].
  destruct (scan_down (aligned cur s) m (length m)); [reflexivity | exact IH].
Qed.

Lemma choice_nil structs cur dflt c :
  choice structs cur [] dflt c -> c = dflt.
Proof.
  intros [[pre [s [post [i [_ [_ [Hi _]]]]]]] | [_ Hc]]; [simpl in Hi; lia | exact Hc].
Qed.

Lemma qlt_iff x y : qlt x y = true <-> (x < y)%Q.
Proof.
  unfold qlt. rewrite negb_true_iff. split.
  - intros H. apply Qnot_le_lt. intros Hle. apply Qle_bool_iff in Hle. congruence.
  - intros H. destruct (Qle_bool y x) eqn:E; [|reflexivity].
    apply Qle_bool_iff in E. exfalso. apply (Qlt_not_le x y H E).
Qed.

Lemma flagged_from_iff ds ts k x :
  In x (flagged_from k ds ts) <->
  exists i, x = (k + i)%nat /\ (i < length ds)%nat /\ (i < length ts)%nat /\
            qlt (nth i ts 0%Q) (nth i ds 0%Q) = true.
Proof.
  revert ts k. induction ds as [|d ds IH]; intros ts k.
  - simpl. split; [tauto | intros [i [_ [Hi _]]]; lia].
  - destruct ts as [|t ts].
    + simpl. split; [tauto | intros [i [_ [_ [Hi _]]]]; simpl in Hi; lia].
    + simpl. destruct (qlt t d) eqn:E.
      * simpl. rewrite IH. split.
        -- intros [<-|[i [-> [H1 [H2 H3]]]]].
           ++ exists 0%nat. repeat split; [lia | lia | lia | exact E].
           ++ exists (S i). repeat split; [lia | lia | lia | exact H3].
        -- intros [[|i] [-> [H1 [H2 H3]]]]; [left; lia|].
           right. exists i. repeat split; [lia | lia | lia | exact H3].
      * rewrite IH. split.
        -- intros [i [-> [H1 [H2 H3]]]].
           exists (S i). repeat split; [lia | lia | lia | exact H3].
        -- intros [[|i] [-> [H1 [H2 H3]]]]; [simpl in H3; congruence|].
           exists i. repeat split; [lia | lia | lia | exact H3].
Qed.

Lemma padded_thr_length diffs :
  (25 <= length diffs)%nat -> length (padded_thr diffs) = length diffs.
Proof.
  intros H. unfold padded_thr, sliding_windows.
  rewrite !length_app, !repeat_length, length_map, length_map, length_seq. lia.
Qed.

Lemma nth_length_last (l : list Z) : l <> [] -> nth (length l - 1) l 0 = last l 0.
Proof.
  induction l as [|a t IH]; intros H; [congruence|].
  destruct t as [|b t']; [reflexivity|].
  change (last (a :: b :: t') 0) with (last (b :: t') 0). rewrite <- IH by discriminate.
  simpl. rewrite Nat.sub_0_r. reflexivity.
Qed.

(** The window of candidates of the second branch. *)
Lemma avail_facts n F h cur mx :
  frames_wf n F -> 0 <= h <= len F - 1 -> get F h - cur <= mx ->
  let avail := take_within mx cur (skipn (Z.to_nat h) F) in
  (0 < length avail)%nat /\ (length avail <= length F - Z.to_nat h)%nat /\
  forall i, (i < length avail)%nat -> nth i avail 0 = get F (h + Z.of_nat i).
Proof.
  intros HF Hh Hm avail.
  split; [|split].
  - unfold avail. destruct (skipn (Z.to_nat h) F) as [|z t] eqn:Es.
    + apply (f_equal (@length Z)) in Es. rewrite length_skipn in Es.
      simpl in Es. unfold len in Hh. lia.
    + pose proof (nth_skipn (Z.to_nat h) F 0 0) as Hz.
      rewrite Es, Nat.add_0_r in Hz. simpl in Hz. fold (get F h) in Hz.
      subst z. simpl. replace (get F h - cur <=? mx) with true
        by (symmetry; apply Z.leb_le; exact Hm). simpl. lia.
  - unfold avail. rewrite <- length_skipn. apply take_within_length.
  - intros i Hi. unfold avail. rewrite take_within_nth by exact Hi.
    rewrite nth_skipn. unfold get. rewrite Z2Nat.inj_add, Nat2Z.id by lia.
    reflexivity.
Qed.

(** The second branch ends on the candidate chosen by [choice], the
    latest one by default. *)
Lemma accept_step P n diff F st :
  frames_wf n F -> -1 <= head st -> head st < len F - 1 ->
  min_scene_length P <= get F (head st + 1) - current_frame st <= max_scene_length P ->
  let avail := take_within (max_scene_length P) (current_frame st)
                 (skipn (Z.to_nat (head st + 1)) F) in
  (forall a, In a avail ->
     min_scene_length P <= a - current_frame st <= max_scene_length P) /\
  exists st', step P n diff F st = Some st' /\
    svt_av1_frames st' = svt_av1_frames st ++ [current_frame st'] /\
    choice [32; 16; 8; 4; 2] (current_frame st) avail (last avail 0)
           (current_frame st').
Proof.
  intros HF Hh Hr Hw avail.
  destruct (avail_facts n F (head st + 1) (current_frame st) (max_scene_length P)
              HF ltac:(lia) ltac:(lia)) as [Hne [Hla Hnth]].
  fold avail in Hne, Hla, Hnth.
  destruct HF as [Hs [Hb [HFne Hlast]]].
  split.
  - intros a Ha. destruct (In_nth avail a 0 Ha) as [i [Hi <-]].
    split.
    + rewrite Hnth by exact Hi.
      assert (get F (head st + 1) <= get F (head st + 1 + Z.of_nat i))
        by (apply get_le; [exact Hs | lia | unfold len in *; lia]).
      lia.
    + apply take_within_bound. exact Hi.
  - unfold step. cbv zeta.
    replace (get F (head st + 1) - current_frame st <? min_scene_length P) with false
      by (symmetry; apply Z.ltb_ge; lia).
    replace (get F (head st + 1) - current_frame st <=? max_scene_length P) with true
      by (symmetry; apply Z.leb_le; lia).
    fold avail.
    pose proof (search_choice [32; 16; 8; 4; 2] (current_frame st) avail (last avail 0))
      as Hc.
    destruct (search_structures [32; 16; 8; 4; 2] avail (current_frame st)) as [i|].
    + destruct Hc as [Hi Hc]. eexists. split; [reflexivity|].
      cbn [svt_av1_frames current_frame]. split; [reflexivity|].
      rewrite <- Hnth by exact Hi. exact Hc.
    + eexists. split; [reflexivity|].
      cbn [svt_av1_frames current_frame]. split; [reflexivity|].
      rewrite <- Hnth by lia. rewrite nth_length_last; [exact Hc|].
      intros E. rewrite E in Hne. simpl in Hne. lia.
Qed.

(** The third branch: statistics over [[cur + min_still, cur + max]]. *)
Lemma fallback_step P n diff F st :
  valid P -> frames_wf n F -> 0 <= current_frame st ->
  -1 <= head st -> head st < len F - 1 ->
  max_scene_length P < get F (head st + 1) - current_frame st ->
  let cur := current_frame st in
  let diffs := fallback_diffs P n diff cur in
  length diffs = Z.to_nat (max_scene_length P - min_still_scene_length P + 1) /\
  length (padded_thr diffs) = length diffs /\
  (forall f, In f (motion_frames P n diff cur) <->
     exists i, (i < length diffs)%nat /\
               f = cur + min_still_scene_length P + Z.of_nat i /\
               (nth i (padded_thr diffs) 0 < nth i diffs 0)%Q) /\
  exists st', step P n diff F st = Some st' /\ head st' = head st /\
    svt_av1_frames st' = svt_av1_frames st ++ [current_frame st'] /\
    choice [32; 16; 8] cur (motion_frames P n diff cur)
           (cur + max_scene_length P) (current_frame st').
Proof.
  intros [[Hv1 Hv2] Hv3] HF Hc Hh Hr Hw cur diffs.
  destruct HF as [Hs [Hb [HFne Hlast]]].
  assert (Hfn : get F (head st + 1) <= n).
  { rewrite Forall_forall in Hb. apply Hb, get_In. lia. }
  assert (Hl : length diffs = Z.to_nat (max_scene_length P - min_still_scene_length P + 1))
    by (apply fallback_diffs_length; lia).
  assert (Hpl : length (padded_thr diffs) = length diffs)
    by (apply padded_thr_length; lia).
  split; [exact Hl|]. split; [exact Hpl|]. split.
  - intros f. unfold motion_frames. fold cur diffs. rewrite in_map_iff. split.
    + intros [x [<- Hx]]. apply flagged_from_iff in Hx as [i [-> [H1 [H2 H3]]]].
      exists i. split; [exact H1|]. split; [lia|]. apply qlt_iff. exact H3.
    + intros [i [Hi [-> Hq]]]. exists i. split; [lia|].
      apply flagged_from_iff. exists i. split; [reflexivity|].
      split; [exact Hi|]. split; [lia|]. apply qlt_iff. exact Hq.
  - unfold step. cbv zeta. fold cur.
    replace (get F (head st + 1) - cur <? min_scene_length P) with false
      by (symmetry; apply Z.ltb_ge; unfold cur in *; lia).
    replace (get F (head st + 1) - cur <=? max_scene_length P) with false
      by (symmetry; apply Z.leb_gt; unfold cur in *; lia).
    unfold fallback. fold diffs.
    replace ((length diffs <? 25)%nat) with false by (symmetry; apply Nat.ltb_ge; lia).
    rewrite search_motion_structures.
    pose proof (search_choice [32; 16; 8] cur (motion_frames P n diff cur)
                  (cur + max_scene_length P)) as Hch.
    destruct (motion_frames P n diff cur) as [|m ms] eqn:Em.
    + eexists. split; [reflexivity|]. simpl. split; [lia|]. split; [reflexivity|].
      right. split; [intros s _ a []|reflexivity].
    + destruct (search_structures [32; 16; 8] (m :: ms) cur) as [i|].
      * destruct Hch as [_ Hch].
        eexists. split; [reflexivity|]. simpl. split; [lia|].
        split; [reflexivity | exact Hch].
      * eexists. split; [reflexivity|]. simpl. split; [lia|].
        split; [reflexivity | exact Hch].
Qed.

Lemma all_frames_last sc :
  get (all_frames sc) (len (all_frames sc) - 1) = Z.of_nat (length sc).
Proof.
  unfold all_frames, get, len. rewrite length_app. simpl.
  replace (Z.to_nat (Z.of_nat (length (generate_keyframes sc) + 1) - 1))
    with (length (generate_keyframes sc)) by lia.
  apply nth_middle.
Qed.

Lemma all_frames_hint sc h :
  0 <= h < len (all_frames sc) - 1 -> In (get (all_frames sc) h) (generate_keyframes sc).
Proof.
  unfold all_frames, get, len. rewrite length_app. simpl. intros Hh.
  rewrite app_nth1 by lia. apply nth_In. lia.
Qed.

End AlignerFacts.

(* ------------------------------------------------------------------ *)
(** ** States reached by the loop *)

Module AlignerTraceFacts.
Import Aligner AlignerSpec AlignerTrace AlignerFacts.

Lemma fallback_lower P n diff cur s :
  valid P -> fallback P n diff cur = Some s -> cur + min_still_scene_length P <= s.
Proof.
  intros [_ Hv] H. unfold fallback in H.
  destruct ((length (fallback_diffs P n diff cur) <? 25)%nat); [discriminate|].
  destruct (match motion_frames P n diff cur with
            | [] => None
            | _ => search_motion [32; 16; 8] (motion_frames P n diff cur) cur
            end) as [f|] eqn:E.
  - injection H as <-. destruct (motion_frames P n diff cur) eqn:Em; [discriminate|].
    rewrite <- Em in E. apply search_motion_In, motion_frames_range in E. lia.
  - injection H as <-. lia.
Qed.

Lemma in_removelast (l : list Z) x : In x (removelast l) -> In x l.
Proof.
  induction l as [|a t IH]; [intros []|].
  destruct t as [|b t]; [intros []|].
  intros [->|H]; [left; reflexivity | right; apply IH, H].
Qed.

Lemma steps_stopped P n diff F s s' :
  steps_to P n diff F s s' -> ~ running F s -> s' = s.
Proof.
  intros H Hr. destruct H as [s|s s1 s' Hg _ _]; [reflexivity|].
  exfalso. apply Hr. unfold running, len. apply Z.ltb_lt. exact Hg.
Qed.

(** Every state of the loop still running satisfies [inv]. *)
Lemma steps_inv P n diff F s s' :
  valid P -> frames_wf n F -> steps_to P n diff F s s' ->
  inv P F s -> running F s' -> inv P F s'.
Proof.
  intros HP HF H. induction H as [s|s s1 s' Hg Hs Hrest IH]; intros Hi Hr; [exact Hi|].
  assert (Hrs : running F s) by (unfold running, len; apply Z.ltb_lt; exact Hg).
  destruct (step_progress P n diff F s HP HF Hi Hrs) as [s2 [Es [[Hr2 [Hi2 _]] | Hf]]];
    rewrite Hs in Es; injection Es as <-.
  - exact (IH Hi2 Hr).
  - destruct Hf as [Hh _].
    assert (E : s' = s1) by (apply (steps_stopped P n diff F); [exact Hrest | unfold running; lia]).
    subst s'. unfold running in Hr. lia.
Qed.

(** The loop from a reached state ends where the whole loop ends. *)
Lemma loop_steps P n diff F s s' :
  steps_to P n diff F s s' -> forall fuel sf,
  loop P n diff F fuel s = Some sf -> exists fuel', loop P n diff F fuel' s' = Some sf.
Proof.
  induction 1 as [s|s s1 s' Hg Hs Hrest IH]; intros fuel sf Hl; [exists fuel; exact Hl|].
  destruct fuel as [|k]; cbn in Hl; rewrite Hg in Hl; [discriminate|].
  rewrite Hs in Hl. exact (IH k sf Hl).
Qed.

Lemma reached_inv P sc diff st :
  valid P -> sc <> [] -> reached P sc diff st -> running (all_frames sc) st ->
  inv P (all_frames sc) st.
Proof.
  intros HP Hne Hst Hr. pose proof (all_frames_wf sc Hne) as HF.
  apply (steps_inv P _ diff _ init_state st HP HF Hst); [apply (init_inv P _ _ HF) | exact Hr].
Qed.

(** The output is what is left, after the pop, of the loop run on from
    any reached state. *)
Lemma reached_output P sc diff st kfs :
  reached P sc diff st ->
  generate_svt_av1_keyframes P sc diff = Some kfs ->
  exists fuel sf, loop P (Z.of_nat (length sc)) diff (all_frames sc) fuel st = Some sf /\
                  kfs = removelast (svt_av1_frames sf).
Proof.
  intros Hst Hg. unfold generate_svt_av1_keyframes in Hg.
  destruct (run P sc diff) as [sf|] eqn:Er; [|discriminate]. injection Hg as <-.
  unfold run in Er. destruct (loop_steps _ _ _ _ _ _ Hst _ _ Er) as [fuel Hl].
  exists fuel, sf. split; [exact Hl | reflexivity].
Qed.

Section Skip.
(** A hint [h0] at index [hd0] of the loop's list, closer than
    [min_scene_length] to [cur0]. *)
Variable P : params.
Variable n : Z.
Variable diff : Z -> Q.
Variable F : list Z.
Variables hd0 cur0 : Z.
Hypothesis HP : valid P.
Hypothesis HF : frames_wf n F.
Hypothesis Hhd0 : 0 <= hd0.
Hypothesis Hcur0 : cur0 < get F hd0.
Hypothesis Hshort : get F hd0 - cur0 < min_scene_length P.

(** Once past [hd0], every cut is at most [cur0] or after [h0]. *)
Definition past (s : state) : Prop :=
  hd0 <= head s /\ cur0 <= current_frame s /\
  forall x, In x (svt_av1_frames s) -> x <= cur0 \/ get F hd0 < x.

Lemma past_snoc s x :
  past s -> get F hd0 < x ->
  forall y, In y (svt_av1_frames s ++ [x]) -> y <= cur0 \/ get F hd0 < y.
Proof.
  intros [_ [_ Hs]] Hx y Hy. apply in_app_or in Hy as [Hy|[<-|[]]].
  - exact (Hs y Hy).
  - right. exact Hx.
Qed.

Lemma past_step s s' :
  past s -> running F s -> step P n diff F s = Some s' -> past s'.
Proof.
  intros Hp Hr Hs. pose proof Hp as [Hh [Hc _]]. unfold running in Hr.
  destruct HF as [Hsort [Hb [Hne Hlast]]].
  destruct HP as [[Hm1 Hm2] Hm3].
  unfold step in Hs. cbv zeta in Hs.
  set (h := head s + 1) in *. set (cur := current_frame s) in *.
  assert (Hhdef : h = head s + 1) by reflexivity. clearbody h cur.
  destruct (get F h - cur <? min_scene_length P).
  - destruct (negb (h =? Z.of_nat (length F) - 1)); injection Hs as <-.
    + unfold past in *; cbn [head current_frame svt_av1_frames]. split; [lia|]. tauto.
    + assert (get F hd0 < get F h) by (apply get_lt; [exact Hsort | lia | zlia]).
      split; cbn [head current_frame svt_av1_frames]; [lia|]. split; [lia|].
      apply past_snoc; assumption.
  - destruct (get F h - cur <=? max_scene_length P).
    + set (avail := take_within (max_scene_length P) cur (skipn (Z.to_nat h) F)) in *.
      assert (Hsel : exists sel,
                 match search_structures [32; 16; 8; 4; 2] avail cur with
                 | Some i => i
                 | None => (length avail - 1)%nat
                 end = sel /\ (sel < length avail \/ sel = 0)%nat).
      { destruct (search_structures [32; 16; 8; 4; 2] avail cur) as [i|] eqn:Ess.
        - exists i. split; [reflexivity|]. left. eapply search_structures_lt; exact Ess.
        - exists (length avail - 1)%nat. split; [reflexivity | lia]. }
      destruct Hsel as [sel [Es Hsl]]. rewrite Es in Hs. injection Hs as <-.
      assert (Hla : (length avail <= length F - Z.to_nat h)%nat).
      { unfold avail. rewrite <- length_skipn. apply take_within_length. }
      assert (Hbound : h + Z.of_nat sel <= len F - 1) by zlia.
      assert (get F hd0 < get F (h + Z.of_nat sel))
        by (apply get_lt; [exact Hsort | lia | zlia]).
      split; cbn [head current_frame svt_av1_frames]; [lia|]. split; [lia|].
      apply past_snoc; assumption.
    + destruct (fallback P n diff cur) as [sel|] eqn:Ef; [|discriminate].
      injection Hs as <-.
      pose proof (fallback_lower P n diff cur sel (conj (conj Hm1 Hm2) Hm3) Ef).
      split; cbn [head current_frame svt_av1_frames]; [lia|]. split; [lia|].
      apply past_snoc; [exact Hp | lia].
Qed.

Lemma past_loop : forall fuel s sf,
  past s -> loop P n diff F fuel s = Some sf -> past sf.
Proof.
  induction fuel as [|k IH]; intros s sf Hp Hl; cbn in Hl;
    destruct (head s <? Z.of_nat (length F) - 1) eqn:Eg.
  - discriminate.
  - injection Hl as <-. exact Hp.
  - destruct (step P n diff F s) as [s1|] eqn:Es; [|discriminate].
    apply (IH s1); [|exact Hl].
    apply (past_step s); [exact Hp | unfold running, len; apply Z.ltb_lt; exact Eg | exact Es].
  - injection Hl as <-. exact Hp.
Qed.

End Skip.

(** The iteration at the clip end within [max_scene_length]: the clip
    end is the only candidate and becomes the cut. *)
Lemma skipn_all_frames sc :
  skipn (Z.to_nat (len (all_frames sc) - 1)) (all_frames sc) = [Z.of_nat (length sc)].
Proof.
  unfold len, all_frames. rewrite length_app. cbn [length].
  replace (Z.to_nat (Z.of_nat (length (generate_keyframes sc) + 1) - 1))
    with (length (generate_keyframes sc)) by lia.
  rewrite skipn_app, skipn_all, Nat.sub_diag. reflexivity.
Qed.

Lemma clip_end_step P diff sc st :
  head st + 1 = len (all_frames sc) - 1 ->
  Z.of_nat (length sc) - current_frame st <= max_scene_length P ->
  step P (Z.of_nat (length sc)) diff (all_frames sc) st =
    Some {| head := len (all_frames sc) - 1; current_frame := Z.of_nat (length sc);
            svt_av1_frames := svt_av1_frames st ++ [Z.of_nat (length sc)] |}.
Proof.
  intros Hh Hm. pose proof (all_frames_last sc) as Hl.
  unfold step. cbv zeta. rewrite Hh, Hl.
  destruct (Z.of_nat (length sc) - current_frame st <? min_scene_length P).
  - replace (negb (len (all_frames sc) - 1 =? Z.of_nat (length (all_frames sc)) - 1))
      with false by (unfold len; rewrite Z.eqb_refl; reflexivity).
    reflexivity.
  - replace (Z.of_nat (length sc) - current_frame st <=? max_scene_length P) with true
      by (symmetry; apply Z.leb_le; exact Hm).
    rewrite skipn_all_frames. cbn [take_within].
    replace (Z.of_nat (length sc) - current_frame st <=? max_scene_length P) with true
      by (symmetry; apply Z.leb_le; exact Hm).
    assert (Hsel : match search_structures [32; 16; 8; 4; 2] [Z.of_nat (length sc)]
                           (current_frame st) with
                   | Some i => i
                   | None => (length [Z.of_nat (length sc)] - 1)%nat
                   end = 0%nat).
    { destruct (search_structures _ _ _) as [i|] eqn:E; [|reflexivity].
      apply search_structures_lt in E. cbn in E. lia. }
    rewrite Hsel, Z.add_0_r, Hl. reflexivity.
Qed.

End AlignerTraceFacts.


(* ================================================================== *)
(** * The claims about the aligner *)

Module AlignerClaims.
Import Aligner AlignerSpec AlignerTrace AlignerInputs AlignerFacts AlignerTraceFacts.

(** C1: for every clip (its per-frame WWXD flags [sc]) and every LumaDiff
    series, [generate_svt_av1_keyframes] with its default arguments (the
    ones [SVTAV1.encode] uses) returns a list that starts with frame 0, is
    strictly increasing and so has no duplicate, and whose consecutive
    gaps all lie in [[min_scene_length, max_scene_length]]; the remaining
    gap to the clip end is at most [max_scene_length] and may be shorter. *)
Theorem C1_keyframes_invariant (sc : list bool) (diff : Z -> Q) :
  exists kfs, generate_svt_av1_keyframes defaults sc diff = Some kfs /\
    (exists t, kfs = 0 :: t) /\ StronglySorted Z.lt kfs /\ NoDup kfs /\
    gaps_ok (min_scene_length defaults) (max_scene_length defaults) kfs /\
    0 <= Z.of_nat (length sc) - last kfs 0 <= max_scene_length defaults.
Proof.
  destruct sc as [|b sc'].
  - exists [0]. split; [reflexivity|]. split; [exists []; reflexivity|].
    split; [repeat constructor|]. split; [repeat constructor; simpl; tauto|].
    simpl. lia.
  - destruct (generate_out_ok defaults (b :: sc') diff valid_defaults
                ltac:(discriminate)) as [kfs [Hg Hok]].
    exists kfs. split; [exact Hg|].
    destruct Hok as [Hne [Hhd [Hgaps Hfin]]].
    split.
    { destruct kfs as [|a t]; [congruence|]. simpl in Hhd. subst a.
      exists t. reflexivity. }
    assert (Hss : StronglySorted Z.lt kfs)
      by (eapply gaps_StronglySorted; [|exact Hgaps]; simpl; lia).
    split; [exact Hss|]. split; [apply ssorted_nodup; exact Hss|].
    split; [exact Hgaps | lia].
Qed.

(** C9: for every non-empty clip (a VapourSynth clip has at least one
    frame), the loop ends with the sentinel [len(clip)] as the last
    element appended, the final pop removes exactly it, and every
    returned index is in [[0, len(clip))]. *)
Theorem C9_sentinel_popped (sc : list bool) (diff : Z -> Q) :
  sc <> [] ->
  exists st kfs, run defaults sc diff = Some st /\
    svt_av1_frames st = kfs ++ [Z.of_nat (length sc)] /\
    generate_svt_av1_keyframes defaults sc diff = Some kfs /\
    Forall (fun x => 0 <= x < Z.of_nat (length sc)) kfs.
Proof.
  intros Hne.
  destruct (run_final defaults sc diff valid_defaults Hne)
    as [st [Hrun [_ [o [Ho Hok]]]]].
  exists st, o. split; [exact Hrun|]. split; [exact Ho|]. split.
  - unfold generate_svt_av1_keyframes. rewrite Hrun, Ho, removelast_last.
    reflexivity.
  - apply (out_ok_range defaults); [simpl; lia | exact Hok].
Qed.

Lemma C9_sentinel_popped_witness :
  exists st kfs, run defaults sc_no_hint_300 zero_diff = Some st /\
    svt_av1_frames st = kfs ++ [300] /\
    generate_svt_av1_keyframes defaults sc_no_hint_300 zero_diff = Some kfs /\
    Forall (fun x => 0 <= x < 300) kfs.
Proof.
  apply (C9_sentinel_popped sc_no_hint_300 zero_diff). discriminate.
Defined.

(** C4 (counterexample): with 100 frames and a single WWXD cut at frame
    50, that cut is the last hint and lies closer than [min_scene_length]
    to frame 0, yet it is not in the output. *)
Lemma C4_counterexample :
  generate_keyframes sc_one_short_hint = [50] /\
  50 - 0 < min_scene_length defaults /\
  generate_svt_av1_keyframes defaults sc_one_short_hint zero_diff = Some [0] /\
  ~ In 50 [0].
Proof.
  split; [vm_compute; reflexivity|]. split; [vm_compute; reflexivity|].
  split; [vm_compute; reflexivity|]. simpl. lia.
Qed.

(** C4 (amended): when the next element of the loop's list (the WWXD
    hints followed by the sentinel [len(clip)]) is closer than
    [min_scene_length], the iteration skips it (head advances, nothing
    else changes) if it is a hint, the last hint included; only when it
    is the final element, which is the sentinel, is it appended, and the
    pop removes it again so it never appears in the output. *)
Theorem C4_short_hint_skipped :
  (forall P n diff sc st,
     let F := all_frames sc in
     let h := head st + 1 in
     0 <= h <= len F - 1 ->
     get F h - current_frame st < min_scene_length P ->
     (h < len F - 1 ->
        In (get F h) (generate_keyframes sc) /\
        step P n diff F st =
          Some {| head := h; current_frame := current_frame st;
                  svt_av1_frames := svt_av1_frames st |}) /\
     (h = len F - 1 ->
        get F h = Z.of_nat (length sc) /\
        step P n diff F st =
          Some {| head := h; current_frame := get F h;
                  svt_av1_frames := svt_av1_frames st ++ [get F h] |})) /\
  (forall sc diff kfs, sc <> [] ->
     generate_svt_av1_keyframes defaults sc diff = Some kfs ->
     ~ In (Z.of_nat (length sc)) kfs) /\
  (forall P sc diff st kfs,
     valid P -> sc <> [] -> reached P sc diff st ->
     head st + 1 < len (all_frames sc) - 1 ->
     get (all_frames sc) (head st + 1) - current_frame st < min_scene_length P ->
     generate_svt_av1_keyframes P sc diff = Some kfs ->
     In (get (all_frames sc) (head st + 1)) (generate_keyframes sc) /\
     ~ In (get (all_frames sc) (head st + 1)) kfs).
Proof.
  split; [|split].
  - intros P n diff sc st F h Hh Hmin. split.
    + intros Hlt. split; [apply all_frames_hint; exact (conj (proj1 Hh) Hlt)|].
      unfold step. cbv zeta. fold h.
      replace (get F h - current_frame st <? min_scene_length P) with true
        by (symmetry; apply Z.ltb_lt; exact Hmin).
      replace (negb (h =? Z.of_nat (length F) - 1)) with true
        by (symmetry; apply negb_true_iff, Z.eqb_neq; unfold len in Hlt; lia).
      reflexivity.
    + intros Heq. split; [rewrite Heq; apply all_frames_last|].
      unfold step. cbv zeta. fold h.
      replace (get F h - current_frame st <? min_scene_length P) with true
        by (symmetry; apply Z.ltb_lt; exact Hmin).
      replace (negb (h =? Z.of_nat (length F) - 1)) with false
        by (symmetry; apply negb_false_iff, Z.eqb_eq; unfold len in Heq; lia).
      reflexivity.
  - intros sc diff kfs Hne Hg Hin.
    destruct (generate_out_ok defaults sc diff valid_defaults Hne) as [k [Hk Hok]].
    rewrite Hg in Hk. injection Hk as <-.
    pose proof (out_ok_range defaults _ _ ltac:(simpl; lia) Hok) as Hr.
    rewrite Forall_forall in Hr. specialize (Hr _ Hin). lia.
  - intros P sc diff st kfs HP Hne Hst Hlt Hmin Hg.
    set (F := all_frames sc) in *.
    pose proof (all_frames_wf sc Hne) as HF. fold F in HF.
    assert (Hr : running F st) by (unfold running; lia).
    pose proof (reached_inv P sc diff st HP Hne Hst Hr) as Hi. fold F in Hi.
    destruct Hi as [Hh [Hc [Hk [Ho1 [Ho2 [Ho3 Ho4]]]]]].
    assert (Hcur : current_frame st < get F (head st + 1)) by (apply Hk; lia).
    split; [apply all_frames_hint; fold F; lia|].
    destruct (reached_output P sc diff st kfs Hst Hg) as [fuel [sf [Hl ->]]].
    fold F in Hl.
    destruct fuel as [|k]; cbn in Hl;
      (replace (head st <? Z.of_nat (length F) - 1) with true in Hl
         by (symmetry; apply Z.ltb_lt; unfold len in Hlt; lia)); [discriminate|].
    unfold step in Hl at 1. cbv zeta in Hl.
    replace (get F (head st + 1) - current_frame st <? min_scene_length P) with true in Hl
      by (symmetry; apply Z.ltb_lt; exact Hmin).
    replace (negb (head st + 1 =? Z.of_nat (length F) - 1)) with true in Hl
      by (symmetry; apply negb_true_iff, Z.eqb_neq; unfold len in Hlt; lia).
    destruct HP as [[Hm1 Hm2] Hm3].
    assert (Hpast : past F (head st + 1) (current_frame st) sf).
    { assert (Hp1 : past F (head st + 1) (current_frame st)
                     {| head := head st + 1; current_frame := current_frame st;
                        svt_av1_frames := svt_av1_frames st |}).
      { split; cbn [head current_frame svt_av1_frames]; [lia|]. split; [lia|].
        intros x Hx. left. destruct (svt_av1_frames st) as [|a t] eqn:Es; [congruence|].
        cbn in Ho2. subst a. rewrite <- Ho3.
        exact (proj2 (gaps_range (min_scene_length P) (max_scene_length P) 0 t
                        ltac:(lia) Ho4 x Hx)). }
      exact (past_loop P (Z.of_nat (length sc)) diff F (head st + 1) (current_frame st)
               (conj (conj Hm1 Hm2) Hm3) HF ltac:(lia) Hcur Hmin k _ _ Hp1 Hl). }
    intros Hin. apply in_removelast in Hin.
    destruct Hpast as [_ [_ Hx]]. destruct (Hx _ Hin); lia.
Qed.

Lemma C4_short_hint_skipped_witness :
  (In 50 (generate_keyframes sc_one_short_hint) /\
   step defaults 100 zero_diff (all_frames sc_one_short_hint) init_state =
     Some {| head := 0; current_frame := 0; svt_av1_frames := [0] |}) /\
  ~ In 100 [0] /\
  (In 170 (generate_keyframes sc_129_170) /\ ~ In 170 [0; 129; 386]).
Proof.
  split; [|split].
  - destruct (proj1 C4_short_hint_skipped defaults 100 zero_diff
                sc_one_short_hint init_state) as [H1 _];
      [vm_compute; split; discriminate | vm_compute; reflexivity |].
    apply H1. vm_compute. reflexivity.
  - apply (proj1 (proj2 C4_short_hint_skipped) sc_one_short_hint zero_diff [0]);
      [discriminate | vm_compute; reflexivity].
  - (* after the cut at 129, the hint at 170 is 41 frames away *)
    apply (proj2 (proj2 C4_short_hint_skipped) defaults sc_129_170 zero_diff
             {| head := 0; current_frame := 129; svt_av1_frames := [0; 129] |}
             [0; 129; 386]).
    + exact valid_defaults.
    + discriminate.
    + apply (steps_next _ _ _ _ _
               {| head := 0; current_frame := 129; svt_av1_frames := [0; 129] |}).
      * vm_compute. reflexivity.
      * vm_compute. reflexivity.
      * apply steps_refl.
    + vm_compute. reflexivity.
    + vm_compute. reflexivity.
    + vm_compute. reflexivity.
Defined.

(** C5: in the second branch (the next hint lies within
    [[min_scene_length, max_scene_length]] of [current_frame]) every
    collected candidate lies in that window, and the new cut is the one
    [choice] describes: structures 32, 16, 8, 4, 2 in that order, the
    latest matching candidate [(c - current) mod s == 1] for the first
    structure some candidate matches, else the latest candidate. With
    cuts at 17 and 33 (window [[10, 40]]) and current 0, 33 is chosen. *)
Theorem C5_structure_preference :
  (forall P n diff F st,
     frames_wf n F -> -1 <= head st -> head st < len F - 1 ->
     min_scene_length P <= get F (head st + 1) - current_frame st <=
       max_scene_length P ->
     let avail := take_within (max_scene_length P) (current_frame st)
                    (skipn (Z.to_nat (head st + 1)) F) in
     (forall a, In a avail ->
        min_scene_length P <= a - current_frame st <= max_scene_length P) /\
     exists st', step P n diff F st = Some st' /\
       svt_av1_frames st' = svt_av1_frames st ++ [current_frame st'] /\
       choice [32; 16; 8; 4; 2] (current_frame st) avail (last avail 0)
              (current_frame st')) /\
  (take_within (max_scene_length params_small) 0
     (skipn 0 (all_frames sc_17_33)) = [17; 33] /\
   step params_small 60 zero_diff (all_frames sc_17_33) init_state =
     Some {| head := 1; current_frame := 33; svt_av1_frames := [0; 33] |} /\
   generate_svt_av1_keyframes params_small sc_17_33 zero_diff = Some [0; 33]).
Proof.
  split.
  - intros P n diff F st HF Hh Hr Hw. exact (accept_step P n diff F st HF Hh Hr Hw).
  - split; [vm_compute; reflexivity|]. split; vm_compute; reflexivity.
Qed.

Lemma C5_structure_preference_witness :
  exists st', step params_small 60 zero_diff (all_frames sc_17_33) init_state = Some st' /\
    choice [32; 16; 8; 4; 2] 0 [17; 33] 33 (current_frame st').
Proof.
  destruct (proj1 C5_structure_preference params_small 60 zero_diff
              (all_frames sc_17_33) init_state) as [_ [st' [H1 [_ H2]]]].
  - exact (all_frames_wf sc_17_33 ltac:(discriminate)).
  - vm_compute. discriminate.
  - vm_compute. reflexivity.
  - vm_compute. split; discriminate.
  - exists st'. split; [exact H1|]. vm_compute in H2. exact H2.
Defined.

(** C6 (counterexample): 200 frames without any WWXD cut, all LumaDiff 0:
    no hint lies within 257 frames of 0, but the iteration takes the clip
    end (the sentinel 200) as a candidate of the second branch instead of
    running the statistical fallback, and no cut at 257 is emitted. *)
Lemma C6_counterexample :
  generate_keyframes sc_no_hint_200 = [] /\
  step defaults 200 zero_diff (all_frames sc_no_hint_200) init_state =
    Some {| head := 0; current_frame := 200; svt_av1_frames := [0; 200] |} /\
  generate_svt_av1_keyframes defaults sc_no_hint_200 zero_diff = Some [0] /\
  ~ In (0 + max_scene_length defaults) [0].
Proof.
  split; [vm_compute; reflexivity|]. split; [vm_compute; reflexivity|].
  split; [vm_compute; reflexivity|]. simpl. lia.
Qed.

(** C6 (amended): when the next element of the loop's list, a hint or the
    clip-end sentinel, lies more than [max_scene_length] after
    [current_frame], the iteration reads the LumaDiff samples of
    [[cur + min_still_scene_length, cur + max_scene_length]], pads the
    per-window thresholds to one per sample, flags exactly the samples
    above their threshold, keeps [head], and cuts at the frame [choice]
    gives for structures 32, 16, 8 among the flagged frames, else at
    [cur + max_scene_length]; with the defaults (193, 257) and no sample
    above its threshold the cut is at exactly [cur + 257]. *)
Theorem C6_fallback_cut :
  (forall P n diff F st,
     valid P -> frames_wf n F -> 0 <= current_frame st ->
     -1 <= head st -> head st < len F - 1 ->
     max_scene_length P < get F (head st + 1) - current_frame st ->
     let cur := current_frame st in
     let diffs := fallback_diffs P n diff cur in
     length diffs = Z.to_nat (max_scene_length P - min_still_scene_length P + 1) /\
     length (padded_thr diffs) = length diffs /\
     (forall f, In f (motion_frames P n diff cur) <->
        exists i, (i < length diffs)%nat /\
                  f = cur + min_still_scene_length P + Z.of_nat i /\
                  (nth i (padded_thr diffs) 0 < nth i diffs 0)%Q) /\
     exists st', step P n diff F st = Some st' /\ head st' = head st /\
       svt_av1_frames st' = svt_av1_frames st ++ [current_frame st'] /\
       choice [32; 16; 8] cur (motion_frames P n diff cur)
              (cur + max_scene_length P) (current_frame st')) /\
  (forall n diff F st,
     frames_wf n F -> 0 <= current_frame st ->
     -1 <= head st -> head st < len F - 1 ->
     max_scene_length defaults < get F (head st + 1) - current_frame st ->
     let diffs := fallback_diffs defaults n diff (current_frame st) in
     (forall i, (i < length diffs)%nat ->
        ~ (nth i (padded_thr diffs) 0 < nth i diffs 0)%Q) ->
     exists st', step defaults n diff F st = Some st' /\
       current_frame st' = current_frame st + 257 /\
       svt_av1_frames st' = svt_av1_frames st ++ [current_frame st + 257]) /\
  (forall P sc diff st,
     valid P -> sc <> [] -> reached P sc diff st ->
     head st + 1 = len (all_frames sc) - 1 ->
     Z.of_nat (length sc) - current_frame st <= max_scene_length P ->
     step P (Z.of_nat (length sc)) diff (all_frames sc) st =
       Some {| head := len (all_frames sc) - 1; current_frame := Z.of_nat (length sc);
               svt_av1_frames := svt_av1_frames st ++ [Z.of_nat (length sc)] |} /\
     generate_svt_av1_keyframes P sc diff = Some (svt_av1_frames st)).
Proof.
  split; [|split].
  - intros P n diff F st HP HF Hc Hh Hr Hw.
    exact (fallback_step P n diff F st HP HF Hc Hh Hr Hw).
  - intros n diff F st HF Hc Hh Hr Hw diffs Hnone.
    destruct (fallback_step defaults n diff F st valid_defaults HF Hc Hh Hr Hw)
      as [_ [_ [Hm [st' [Hs [_ [Ho Hch]]]]]]].
    fold diffs in Hm.
    destruct (motion_frames defaults n diff (current_frame st)) as [|f fs] eqn:Em.
    + apply choice_nil in Hch. exists st'.
      split; [exact Hs|]. split; [exact Hch|]. rewrite Ho, Hch. reflexivity.
    + exfalso. destruct (proj1 (Hm f) (or_introl eq_refl)) as [i [Hi [_ Hq]]].
      exact (Hnone i Hi Hq).
  - intros P sc diff st HP Hne Hst Hh Hm.
    pose proof (clip_end_step P diff sc st Hh Hm) as Hs.
    split; [exact Hs|].
    destruct (generate_out_ok P sc diff HP Hne) as [kfs [Hg _]].
    destruct (reached_output P sc diff st kfs Hst Hg) as [fuel [sf [Hl ->]]].
    rewrite Hg. f_equal.
    destruct fuel as [|k]; cbn in Hl;
      (replace (head st <? Z.of_nat (length (all_frames sc)) - 1) with true in Hl
         by (symmetry; apply Z.ltb_lt; unfold len in Hh; lia)); [discriminate|].
    rewrite Hs in Hl. destruct k; cbn in Hl;
      (replace (len (all_frames sc) - 1 <? Z.of_nat (length (all_frames sc)) - 1)
         with false in Hl by (symmetry; apply Z.ltb_ge; unfold len; lia));
      injection Hl as <-; cbn [svt_av1_frames]; apply removelast_last.
Qed.

Lemma C6_fallback_cut_witness :
  (exists st', step defaults 300 zero_diff (all_frames sc_no_hint_300) init_state = Some st' /\
     current_frame st' = 257) /\
  generate_svt_av1_keyframes defaults sc_no_hint_300 zero_diff = Some [0; 257].
Proof.
  split.
  - destruct (proj1 (proj2 C6_fallback_cut) 300 zero_diff (all_frames sc_no_hint_300) init_state)
      as [st' [H1 [H2 _]]].
    + exact (all_frames_wf sc_no_hint_300 ltac:(discriminate)).
    + vm_compute. discriminate.
    + vm_compute. discriminate.
    + vm_compute. reflexivity.
    + vm_compute. reflexivity.
    + intros i Hi.
      replace (fallback_diffs defaults 300 zero_diff (current_frame init_state))
        with (repeat 0%Q 65) in * by (vm_compute; reflexivity).
      replace (padded_thr (repeat 0%Q 65)) with (repeat 0%Q 65) by (vm_compute; reflexivity).
      rewrite !nth_repeat. apply Qlt_irrefl.
    + exists st'. split; [exact H1|]. rewrite H2. reflexivity.
  - (* after the fallback cut at 257 the clip end 300 is 43 frames away *)
    apply (proj2 (proj2 C6_fallback_cut) defaults sc_no_hint_300 zero_diff
             {| head := -1; current_frame := 257; svt_av1_frames := [0; 257] |}).
    + exact valid_defaults.
    + discriminate.
    + apply (steps_next _ _ _ _ _
               {| head := -1; current_frame := 257; svt_av1_frames := [0; 257] |}).
      * vm_compute. reflexivity.
      * vm_compute. reflexivity.
      * apply steps_refl.
    + vm_compute. reflexivity.
    + vm_compute. discriminate.
Defined.

End AlignerClaims.


(* ------------------------------------------------------------------ *)
Module RecoveryFacts.
Import Files Recovery.

(** A run of valid parts is read in order: each one's last keyframe is
    appended and [parts] is not touched. *)
Lemma scan_valid_prefix vs kfs :
  Forall2 (fun p kf => last_keyframe p = Some kf /\ kf <> 0) vs kfs ->
  forall pre r acc f,
    scan_parts (length vs + f) (length pre) (pre ++ vs ++ r) acc =
    scan_parts f (length pre + length vs) (pre ++ vs ++ r) (acc ++ kfs).
Proof.
  induction 1 as [|p kf vs' kfs' [Hp Hk] _ IH]; intros pre r acc f.
  - cbn [length app]. rewrite Nat.add_0_r, app_nil_r. reflexivity.
  - replace (length (p :: vs') + f)%nat with (S (length vs' + f)) by reflexivity.
    cbn [scan_parts].
    rewrite nth_error_app2 by lia. rewrite Nat.sub_diag. cbn [nth_error app].
    rewrite Hp. destruct (Z.eqb_spec kf 0) as [E|_]; [contradiction|].
    specialize (IH (pre ++ [p]) r (acc ++ [kf]) f).
    rewrite length_app, <- app_assoc in IH. cbn [length app] in IH.
    replace (S (length pre)) with (length pre + 1)%nat by lia.
    replace (length pre + length (p :: vs'))%nat with (length pre + 1 + length vs')%nat
      by (cbn [length]; lia).
    replace (acc ++ kf :: kfs') with ((acc ++ [kf]) ++ kfs') by (rewrite <- app_assoc; reflexivity).
    exact IH.
Qed.

Lemma scan_all_valid parts kfs :
  Forall2 (fun p kf => last_keyframe p = Some kf /\ kf <> 0) parts kfs ->
  scan_parts (length parts) 0 parts [] = (parts, kfs).
Proof.
  intros H. pose proof (scan_valid_prefix parts kfs H [] [] [] 0) as E.
  rewrite Nat.add_0_r, !app_nil_l, app_nil_r in E. cbn [length scan_parts] in E.
  exact E.
Qed.

Lemma scan_last_invalid parts kfs p :
  Forall2 (fun p kf => last_keyframe p = Some kf /\ kf <> 0) parts kfs ->
  (last_keyframe p = Some 0 \/ last_keyframe p = None) ->
  scan_parts (length (parts ++ [p])) 0 (parts ++ [p]) [] = (parts, kfs).
Proof.
  intros H Hp. pose proof (scan_valid_prefix parts kfs H [] [p] [] 1) as E.
  rewrite !app_nil_l in E. cbn [length] in E. rewrite Nat.add_0_l in E.
  rewrite length_app. cbn [length]. rewrite E.
  cbn [scan_parts]. rewrite nth_error_app2 by lia. rewrite Nat.sub_diag. cbn [nth_error].
  destruct Hp as [Hp|Hp]; rewrite Hp; cbn [Z.eqb];
    rewrite removelast_last; reflexivity.
Qed.











End RecoveryFacts.

Module RecoveryClaims.
Import Files Recovery RecoverySpec RecoveryInputs RecoveryFacts.

(** C2: when every discovered part is valid (its last keyframe index
    [kf] is not 0), the parts are all kept, the collected keyframes are
    their last keyframe indices in file order, the new part is numbered
    [len(parts)], and the resume frame [start_frame] is their sum. For the
    parts [part_000] and [part_001] with last keyframes 120 and 96 and a
    fresh [part_002] holding only frame 0, the resume point is 216 and the
    new part is [part_002]. *)
Theorem C2_resume_point_sum :
  (forall files parts kfs,
     Forall2 (fun p kf => last_keyframe p = Some kf /\ kf <> 0) parts kfs ->
     discover files parts =
       (files, {| kept_parts := parts; keyframes := kfs;
                  fout_ordinal := length parts;
                  start_frame := fold_left Z.add kfs 0 |})) /\
  snd (discover files3 parts3) =
    {| kept_parts := [p000; p001]; keyframes := [120; 96];
       fout_ordinal := 2; start_frame := 216 |}.
Proof.
  split.
  - intros files parts kfs H. unfold discover. rewrite (scan_all_valid parts kfs H).
    reflexivity.
  - vm_compute. reflexivity.
Qed.

Lemma C2_resume_point_sum_witness :
  discover [] [p000; p001] =
    ([], {| kept_parts := [p000; p001]; keyframes := [120; 96];
            fout_ordinal := 2; start_frame := 216 |}).
Proof.
  apply (proj1 C2_resume_point_sum [] [p000; p001] [120; 96]).
  repeat constructor; vm_compute; congruence.
Defined.




End RecoveryClaims.

(* ------------------------------------------------------------------ *)
Module MergeFacts.
Import Files Merge.

Lemma path_eqb_eq p q : path_eqb p q = true <-> p = q.
Proof.
  destruct p as [s1 x1], q as [s2 x2]; unfold path_eqb; cbn [pstem psuffix].
  rewrite andb_true_iff, !String.eqb_eq. split.
  - intros [-> ->]; reflexivity.
  - intros H; inversion H; auto.
Qed.

Lemma existsb_path_In p fs : existsb (path_eqb p) fs = true <-> In p fs.
Proof.
  rewrite existsb_exists. split.
  - intros [q [Hq E]]. apply path_eqb_eq in E. subst q. exact Hq.
  - intros H. exists p. split; [exact H|]. apply path_eqb_eq. reflexivity.
Qed.

Lemma in_remove_path fs p f : In f (remove_path fs p) <-> In f fs /\ f <> p.
Proof.
  unfold remove_path. rewrite filter_In, negb_true_iff.
  split; intros [H1 H2]; split; auto.
  - intros ->. assert (path_eqb p p = true) by (apply path_eqb_eq; reflexivity). congruence.
  - destruct (path_eqb f p) eqn:E; auto. apply path_eqb_eq in E. contradiction.
Qed.

Lemma unlink_all_spec ps w :
  fst (unlink_all ps w) = inr tt /\
  invoked (snd (unlink_all ps w)) = invoked w /\
  forall f, In f (files (snd (unlink_all ps w))) <-> In f (files w) /\ ~ In f ps.
Proof.
  revert w; induction ps as [|p t IH]; intros w.
  - cbn. split; [reflexivity|]. split; [reflexivity|]. intros f; tauto.
  - cbn [unlink_all bind unlink].
    destruct (IH {| files := remove_path (files w) p; invoked := invoked w |})
      as [H1 [H2 H3]].
    destruct (unlink_all t _) as [u w2]. cbn [fst snd] in *.
    split; [exact H1|]. split; [exact H2|]. intros f. rewrite H3. cbn [files].
    rewrite in_remove_path. cbn [In]. split.
    + intros [[A B] C]. split; [exact A|]. intros [D|D]; [congruence|contradiction].
    + intros [A B]. split; [split; [exact A|]|].
      * intros ->. apply B. left. reflexivity.
      * intros D. apply B. right. exact D.
Qed.

Lemma unlink_all_eq ps w :
  unlink_all ps w = (inr tt, snd (unlink_all ps w)).
Proof.
  destruct (unlink_all_spec ps w) as [H _]. destruct (unlink_all ps w). cbn in *.
  rewrite H. reflexivity.
Qed.

Lemma bind_inr {A B} (m : M A) (k : A -> M B) w a w1 :
  m w = (inr a, w1) -> bind m k w = k a w1.
Proof. intros H. unfold bind. rewrite H. reflexivity. Qed.

Lemma bind_run_cmd {B} run c (k : Z -> M B) w :
  bind (run_cmd run c) k w =
  k (fst (run c (files w)))
    {| files := snd (run c (files w)); invoked := invoked w ++ [(c, fst (run c (files w)))] |}.
Proof. unfold bind, run_cmd. destruct (run c (files w)). reflexivity. Qed.

Lemma bind_inl {A B} (m : M A) (k : A -> M B) w e w1 :
  m w = (inl e, w1) -> bind m k w = (inl e, w1).
Proof. intros H. unfold bind. rewrite H. reflexivity. Qed.

Section Runner.
Variable run : runner.
Hypothesis run_keeps : forall c fs, incl fs (snd (run c fs)).

(** The split loop: either every split reports a status of at most 1 and
    the loop collects the remnants and [-001] halves, or one reports more
    and the loop raises; in both cases no file disappears. *)
Lemma split_parts_spec kps : forall td mp w r w',
  split_parts run kps td mp w = (r, w') ->
  (exists new, invoked w' = invoked w ++ new /\
     ((r = inr (td ++ part_splits kps, mp ++ part_firsts kps) /\
       Forall (fun cs => snd cs <= 1) new) \/
      (exists e, r = inl e /\ exists cs, In cs new /\ 1 < snd cs))) /\
  incl (files w) (files w').
Proof.
  induction kps as [|[kf part] t IH]; intros td mp w r w' H.
  - cbn in H. inversion H; subst. split; [|apply incl_refl].
    exists []. rewrite app_nil_r. split; [reflexivity|]. left.
    split; [rewrite !app_nil_r; reflexivity | constructor].
  - cbn [split_parts] in H. rewrite bind_run_cmd in H.
    set (c := MkvSplit _ _ _) in H.
    pose proof (run_keeps c (files w)) as Hk.
    destruct (run c (files w)) as [st fs] eqn:E. cbn [fst snd] in H, Hk.
    destruct (Z.ltb 1 st) eqn:L.
    + unfold raise in H. inversion H; subst. split; [|exact Hk].
      exists [(c, st)]. split; [reflexivity|]. right. eexists. split; [reflexivity|].
      exists (c, st). split; [left; reflexivity|]. cbn [snd]. apply Z.ltb_lt. exact L.
    + destruct (IH _ _ _ _ _ H) as [[new [Hi Hr]] Hinc]. cbn [files invoked] in Hi, Hinc.
      split; [|exact (incl_tran Hk Hinc)].
      exists ((c, st) :: new). split; [rewrite Hi, <- app_assoc; reflexivity|].
      destruct Hr as [[Hr Hf] | [e [Hr [cs [Hin Hlt]]]]].
      * left. split.
        -- rewrite Hr. unfold part_splits, part_firsts. cbn [flat_map map snd].
           rewrite <- !app_assoc. reflexivity.
        -- constructor; [cbn [snd]; apply Z.ltb_ge; exact L | exact Hf].
      * right. exists e. split; [exact Hr|]. exists cs. split; [right; exact Hin | exact Hlt].
Qed.

End Runner.

End MergeFacts.

Module MergeClaims.
Import Files Merge MergeInputs MergeFacts String.

(** C7 (counterexample): [mkvextract] writes straight to the final output
    path. When it writes part of the track and then reports status 2, the
    merge raises, and the final output [encoded.265], absent before, is
    now present. *)
Lemma C7_counterexample :
  fst (merge_parts partial_extract_runner m_last m_out [120] [m_part] world0) =
    inl "Failed to extract merged track!"%string /\
  In m_out (files (snd (merge_parts partial_extract_runner m_last m_out [120] [m_part] world0))) /\
  ~ In m_out (files world0).
Proof.
  split; [vm_compute; reflexivity|]. split.
  - apply existsb_path_In. vm_compute. reflexivity.
  - intros H. apply existsb_path_In in H. vm_compute in H. discriminate H.
Qed.

(** C7 (amended): for external processes that never remove a file, with
    the new part [last] on disk and not one of [parts], a merge ends in
    one of two ways. Either every mkvtoolnix step reports a status of at
    most 1, the merge returns, every part, split remnant, [last] and
    intermediate container (other than the output path itself) is gone,
    and without earlier parts [last] now sits at the output path. Or a
    step reports a status above 1, the merge raises, and every file that
    was present before is still present; a file written by the failing
    step (the extraction writes to the output path) is not removed. *)
Theorem C7_merge_outcome :
  forall run last original_out keyframes parts w r w',
  (forall c fs, incl fs (snd (run c fs))) ->
  In last (files w) -> ~ In last parts ->
  merge_parts run last original_out keyframes parts w = (r, w') ->
  exists new, invoked w' = invoked w ++ new /\
  ((r = inr tt /\ Forall (fun cs => snd cs <= 1) new /\
    (forall f, In f (merge_deleted last original_out keyframes parts) ->
               f <> original_out -> ~ In f (files w')) /\
    (combine keyframes parts = [] -> In original_out (files w')) /\
    ((forall i o fs, fst (run (MkvExtract i o) fs) <= 1 ->
                     In o (snd (run (MkvExtract i o) fs))) ->
     ~ In original_out (merge_deleted last original_out keyframes parts) ->
     In original_out (files w'))) \/
   (exists e, r = inl e /\ (exists cs, In cs new /\ 1 < snd cs) /\
              incl (files w) (files w'))).
Proof.
  intros run last out kfs parts w r w' Hrun Hlast Hnl.
  unfold merge_parts, merge_deleted.
  remember (combine kfs parts) as kps eqn:Ec. intros H.
  destruct (split_parts run kps [] [] w) as [r0 w1] eqn:Es.
  destruct (split_parts_spec run Hrun _ _ _ _ _ _ Es) as [[new1 [Hi1 Hr1]] Hinc1].
  destruct Hr1 as [[Hr0 Hf1] | [e [Hr0 [cs [Hcs Hlt]]]]].
  2: { subst r0. rewrite (bind_inl _ _ _ _ _ Es) in H. inversion H; subst.
       exists new1. split; [exact Hi1|]. right. exists e. split; [reflexivity|].
       split; [exists cs; split; assumption | exact Hinc1]. }
  subst r0. rewrite (bind_inr _ _ _ _ _ Es) in H.
  cbn [fst snd part_firsts app map List.length Nat.ltb Nat.leb] in H.
  destruct kps as [|kp kps].
  - (* no earlier part: unlink, then rename *)
    cbv beta iota.
    cbn [part_firsts part_splits map flat_map app List.length Nat.ltb Nat.leb] in H.
    rewrite (bind_inr _ _ _ _ _ (unlink_all_eq parts w1)) in H.
    destruct (unlink_all_spec parts w1) as [_ [Hinv Hfs]].
    set (w2 := snd (unlink_all parts w1)) in *.
    assert (Hl2 : In last (files w2)) by (apply Hfs; split; [exact (Hinc1 _ Hlast) | exact Hnl]).
    unfold rename in H. rewrite (proj2 (existsb_path_In last (files w2)) Hl2) in H.
    inversion H; subst. exists new1. split; [cbn [invoked]; rewrite Hinv; exact Hi1|].
    left. split; [reflexivity|]. split; [exact Hf1|]. split; [|split].
    + intros f Hf Hne [Heq|Hin]; [exact (Hne (eq_sym Heq))|].
      rewrite !in_remove_path in Hin. destruct Hin as [[Hin Hnl'] _].
      apply in_app_or in Hf. destruct Hf as [Hp|[Hl|[]]].
      * exact (proj2 (proj1 (Hfs f) Hin) Hp).
      * exact (Hnl' (eq_sym Hl)).
    + intros _. left. reflexivity.
    + intros _ _. left. reflexivity.
  - (* remux [last], append, extract *)
    cbv beta iota. cbn [part_firsts map List.length Nat.leb] in H.
    rewrite bind_run_cmd in H. set (c1 := MkvRemux _ _) in H.
    pose proof (Hrun c1 (files w1)) as Hk1.
    destruct (run c1 (files w1)) as [st1 fs1] eqn:E1. cbn [fst snd] in H, Hk1.
    destruct (Z.ltb 1 st1) eqn:L1.
    { unfold raise in H. inversion H; subst. exists (new1 ++ [(c1, st1)]).
      split; [cbn [invoked]; rewrite Hi1, <- app_assoc; reflexivity|].
      right. eexists. split; [reflexivity|]. split.
      - exists (c1, st1). split; [apply in_or_app; right; left; reflexivity|].
        cbn [snd]. apply Z.ltb_lt. exact L1.
      - exact (incl_tran Hinc1 Hk1). }
    rewrite bind_run_cmd in H. set (c2 := MkvAppend _ _) in H. cbn [files] in H.
    pose proof (Hrun c2 fs1) as Hk2.
    destruct (run c2 fs1) as [st2 fs2] eqn:E2. cbn [fst snd] in H, Hk2.
    destruct (Z.ltb 1 st2) eqn:L2.
    { unfold raise in H. inversion H; subst. exists (new1 ++ [(c1, st1); (c2, st2)]).
      split; [cbn [invoked]; rewrite Hi1, <- !app_assoc; reflexivity|].
      right. eexists. split; [reflexivity|]. split.
      - exists (c2, st2). split; [apply in_or_app; right; right; left; reflexivity|].
        cbn [snd]. apply Z.ltb_lt. exact L2.
      - exact (incl_tran Hinc1 (incl_tran Hk1 Hk2)). }
    rewrite bind_run_cmd in H. set (c3 := MkvExtract _ _) in H. cbn [files] in H.
    pose proof (Hrun c3 fs2) as Hk3.
    destruct (run c3 fs2) as [st3 fs3] eqn:E3. cbn [fst snd] in H, Hk3.
    destruct (Z.ltb 1 st3) eqn:L3.
    { unfold raise in H. inversion H; subst.
      exists (new1 ++ [(c1, st1); (c2, st2); (c3, st3)]).
      split; [cbn [invoked]; rewrite Hi1, <- !app_assoc; reflexivity|].
      right. eexists. split; [reflexivity|]. split.
      - exists (c3, st3). split; [apply in_or_app; right; right; right; left; reflexivity|].
        cbn [snd]. apply Z.ltb_lt. exact L3.
      - exact (incl_tran Hinc1 (incl_tran Hk1 (incl_tran Hk2 Hk3))). }
    match type of H with unlink_all ?L ?w4 = _ =>
      rewrite (unlink_all_eq L w4) in H;
      destruct (unlink_all_spec L w4) as [_ [Hinv Hfs]] end.
    inversion H; subst.
    exists (new1 ++ [(c1, st1); (c2, st2); (c3, st3)]).
    split; [etransitivity; [apply Hinv|]; cbn [invoked]; rewrite Hi1, <- !app_assoc; reflexivity|].
    left. split; [reflexivity|]. split.
    { apply Forall_app. split; [exact Hf1|].
      repeat constructor; cbn [snd]; apply Z.ltb_ge; assumption. }
    split; [|split].
    + intros f Hf Hne Hin. apply Hfs in Hin. destruct Hin as [_ Hn]. apply Hn.
      rewrite !in_app_iff in *. cbn [In] in *. tauto.
    + intros Hc. discriminate Hc.
    + (* the extraction wrote the output, which is not unlinked *)
      intros Hw Hno. apply Hfs. cbn [files]. split.
      * pose proof (Hw (with_suffix out ".mkv"%string) out fs2) as Hx.
        fold c3 in Hx. rewrite E3 in Hx. cbn [fst snd] in Hx.
        apply Hx, Z.ltb_ge, L3.
      * intros Hin. apply Hno. rewrite !in_app_iff in *. cbn [In] in *. tauto.
Qed.

Lemma C7_merge_outcome_witness :
  fst (merge_parts ok_runner m_last m_out [120] [m_part] world0) = inr tt /\
  (exists new, invoked (snd (merge_parts ok_runner m_last m_out [120] [m_part] world0)) =
                 invoked world0 ++ new /\ Forall (fun cs => snd cs <= 1) new) /\
  In m_out (files (snd (merge_parts ok_runner m_last m_out [120] [m_part] world0))).
Proof.
  split; [vm_compute; reflexivity|].
  destruct (C7_merge_outcome ok_runner m_last m_out [120] [m_part] world0
              (fst (merge_parts ok_runner m_last m_out [120] [m_part] world0))
              (snd (merge_parts ok_runner m_last m_out [120] [m_part] world0)))
    as [new [Hi [[_ [Hf [_ [_ Hout]]]] | [e [He _]]]]].
  - intros c fs; destruct c; apply incl_appr, incl_refl.
  - right; left; reflexivity.
  - intros [H|[]]; discriminate H.
  - apply surjective_pairing.
  - split; [exists new; split; assumption|]. apply Hout.
    + intros i o fs _. left. reflexivity.
    + intros H. apply existsb_path_In in H. vm_compute in H. discriminate H.
  - vm_compute in He. discriminate He.
Defined.

(** C10: with no earlier part, [merge_parts] runs no mkvtoolnix command
    (the log of invoked commands is unchanged) and its only effect on the
    work directory is renaming [last] to the output path: every other file
    stays. *)
Theorem C10_no_parts_rename :
  forall run last original_out keyframes w,
  In last (files w) ->
  merge_parts run last original_out keyframes [] w =
    (inr tt, {| files := original_out :: remove_path (remove_path (files w) last) original_out;
                invoked := invoked w |}) /\
  (forall f, In f (files w) -> f <> last ->
     In f (original_out :: remove_path (remove_path (files w) last) original_out)).
Proof.
  intros run last out kfs w Hl. split.
  - assert (Hc : combine kfs (@nil path) = []) by (destruct kfs; reflexivity).
    unfold merge_parts. rewrite Hc.
    cbn [split_parts ret bind fst snd app part_firsts part_splits map flat_map
         List.length Nat.ltb Nat.leb unlink_all rename files invoked].
    unfold rename. rewrite (proj2 (existsb_path_In last (files w)) Hl). reflexivity.
  - intros f Hf Hne. destruct (path_eqb f out) eqn:E.
    + left. symmetry. apply path_eqb_eq. exact E.
    + right. rewrite !in_remove_path. split; [split; assumption|].
      intros ->. rewrite (proj2 (path_eqb_eq out out) eq_refl) in E. discriminate E.
Qed.

Lemma C10_no_parts_rename_witness :
  merge_parts ok_runner m_last m_out [] [] world_last =
    (inr tt, {| files := m_out :: remove_path (remove_path [m_last] m_last) m_out;
                invoked := [] |}).
Proof.
  exact (proj1 (C10_no_parts_rename ok_runner m_last m_out [] world_last
                  ltac:(left; reflexivity))).
Defined.

End MergeClaims.

(* ------------------------------------------------------------------ *)
Module CacheFacts.
Import Cache String.

Lemma lookup_save {A} (fs : store A) k v : lookup (save fs k v) k = Some v.
Proof. unfold save. cbn [lookup]. rewrite String.eqb_refl. reflexivity. Qed.

End CacheFacts.

Module CacheClaims.
Import Cache CacheFacts String.

(** C8: the scene detection of [SVTAV1.encode] runs only when its cache
    file [svt_av1_scene_detection_cache.npy] is missing; a second run
    finds the cache, does not run the detection, leaves the work
    directory as it was and loads the same keyframe list, so it writes
    the same [ForceKeyFrames] line to [svt_av1_keyframes.cfg]. Likewise a
    second [generate_qp_file] for the same start frame returns the same
    path [qpfile_<start_frame>.txt], writes nothing and the file holds
    the same text. *)
Theorem C8_cache_idempotent :
  (forall detect fs,
     let '(kf1, fs1, _) := scene_detection detect fs in
     let '(kf2, fs2, ran2) := scene_detection detect fs1 in
     kf1 = match lookup fs svt_cache with Some k => k | None => detect tt end /\
     kf2 = kf1 /\ fs2 = fs1 /\ ran2 = false /\
     keyframes_cfg kf2 = keyframes_cfg kf1) /\
  (forall keyframes start_frame qs,
     let '(p1, qs1, _) := generate_qp_file keyframes start_frame qs in
     let '(p2, qs2, ran2) := generate_qp_file keyframes start_frame qs1 in
     p1 = qp_name start_frame /\ p2 = p1 /\ qs2 = qs1 /\ ran2 = false /\
     lookup qs1 p1 <> None /\ lookup qs2 p2 = lookup qs1 p1).
Proof.
  split.
  - intros detect fs. unfold scene_detection.
    destruct (lookup fs svt_cache) as [k|] eqn:E;
      do 3 (cbv beta iota zeta; rewrite ?E, ?lookup_save); repeat split.
  - intros keyframes start_frame qs. unfold generate_qp_file.
    destruct (lookup qs (qp_name start_frame)) as [t|] eqn:E;
      do 3 (cbv beta iota zeta; rewrite ?E, ?lookup_save); repeat split; congruence.
Qed.

End CacheClaims.

(* ------------------------------------------------------------------ *)
Module ProbeFacts.
Import Ascii String Probe.

Lemma linebreak_not_cr c : is_linebreak c = false -> Ascii.eqb c cr = false.
Proof.
  intros H. destruct (Ascii.eqb_spec c cr) as [->|]; [discriminate H | reflexivity].
Qed.

(** A line free of line boundaries, ended by [\n], is one line. *)
Lemma split_line l rest cur :
  Forall (fun c => is_linebreak c = false) l ->
  splitlines_from (l ++ lf :: rest) cur = (rev cur ++ l) :: splitlines_from rest [].
Proof.
  revert cur. induction l as [|c l IH]; intros cur Hl.
  - rewrite app_nil_r. reflexivity.
  - inversion Hl as [|? ? Hc Hl']; subst. cbn [app splitlines_from].
    rewrite (linebreak_not_cr c Hc), Hc. rewrite (IH (c :: cur) Hl').
    cbn [rev]. rewrite <- app_assoc. reflexivity.
Qed.

Lemma space_linebreak c : is_space c = false -> is_linebreak c = false.
Proof.
  unfold is_space, is_linebreak. destruct (nat_of_ascii c) as [|k]; [reflexivity|].
  intros H. apply orb_false_iff in H. destruct H as [H1 H2].
  apply orb_false_iff. split.
  - apply andb_false_iff in H1. apply andb_false_iff.
    destruct H1 as [H1|H1]; apply Nat.leb_gt in H1.
    + left. apply Nat.leb_gt. lia.
    + right. apply Nat.leb_gt. lia.
  - apply andb_false_iff in H2. apply andb_false_iff.
    destruct H2 as [H2|H2]; apply Nat.leb_gt in H2.
    + left. apply Nat.leb_gt. lia.
    + destruct (Nat.leb_spec (S k) 30); [|right; reflexivity].
      left. apply Nat.leb_gt. lia.
Qed.

Lemma frame_block_lines t rest :
  Forall good_char t ->
  splitlines_from (ffprobe_frame t ++ rest) [] =
    String.list_ascii_of_string "[FRAME]"%string :: (pict_type ++ eq_sign :: t) ::
    String.list_ascii_of_string "[/FRAME]"%string :: splitlines_from rest [].
Proof.
  intros Ht.
  replace (ffprobe_frame t ++ rest) with
    (String.list_ascii_of_string "[FRAME]"%string ++ lf ::
       (pict_type ++ eq_sign :: t) ++ lf ::
       String.list_ascii_of_string "[/FRAME]"%string ++ lf :: rest)
    by (unfold ffprobe_frame; rewrite <- !app_assoc; reflexivity).
  rewrite split_line by (repeat constructor).
  rewrite split_line.
  - rewrite split_line by (repeat constructor). reflexivity.
  - apply Forall_app. split; [repeat constructor|].
    constructor; [reflexivity|]. eapply Forall_impl; [|exact Ht].
    intros c [Hc _]. apply space_linebreak. exact Hc.
Qed.

Lemma lstrip_id l :
  match l with [] => True | c :: _ => is_space c = false end -> lstrip l = l.
Proof. destruct l as [|c t]; [reflexivity|]. intros H. cbn [lstrip]. rewrite H. reflexivity. Qed.

Lemma strip_frame_line t :
  Forall good_char t -> strip (pict_type ++ eq_sign :: t) = pict_type ++ eq_sign :: t.
Proof.
  intros Ht. unfold strip.
  replace (lstrip (pict_type ++ eq_sign :: t)) with (pict_type ++ eq_sign :: t) by reflexivity.
  rewrite lstrip_id; [apply rev_involutive|].
  rewrite rev_app_distr. cbn [rev]. rewrite <- app_assoc.
  destruct (rev t) as [|d r] eqn:E; [reflexivity|].
  cbn [app]. assert (Hd : In d t) by (apply in_rev; rewrite E; left; reflexivity).
  rewrite Forall_forall in Ht. apply (Ht d Hd).
Qed.

Lemma take_field_id t : Forall good_char t -> take_field t = t.
Proof.
  induction 1 as [|c t [_ Hc] _ IH]; [reflexivity|]. cbn [take_field].
  destruct (Ascii.eqb_spec c eq_sign); [contradiction|]. rewrite IH. reflexivity.
Qed.

Lemma parse_skip l t c acc :
  is_frame_line l = false -> parse_lines (l :: t) c acc = parse_lines t c acc.
Proof. unfold is_frame_line. intros H. cbn [parse_lines]. rewrite H. reflexivity. Qed.

Lemma parse_frame t tl c acc :
  Forall good_char t ->
  parse_lines ((pict_type ++ eq_sign :: t) :: tl) c acc =
  parse_lines tl (c + 1) (if list_ascii_eqb t letter_I then acc ++ [c] else acc).
Proof.
  intros Ht. cbn [parse_lines]. rewrite (strip_frame_line t Ht).
  replace (prefixb pict_type (pict_type ++ eq_sign :: t)) with true by reflexivity.
  replace (field1 (pict_type ++ eq_sign :: t)) with (Some (take_field t)) by reflexivity.
  rewrite (take_field_id t Ht). destruct (list_ascii_eqb t letter_I); reflexivity.
Qed.

Lemma parse_blocks ts : forall k acc,
  Forall (Forall good_char) ts ->
  parse_lines (splitlines_from (List.concat (map ffprobe_frame ts)) []) k acc =
  Some (acc ++ i_frames ts k).
Proof.
  induction ts as [|t r IH]; intros k acc Hts.
  - rewrite app_nil_r. reflexivity.
  - inversion Hts as [|? ? Ht Hr]; subst. cbn [map List.concat].
    rewrite (frame_block_lines t _ Ht).
    rewrite parse_skip by reflexivity. rewrite (parse_frame t _ _ _ Ht).
    rewrite parse_skip by reflexivity. rewrite (IH _ _ Hr). cbn [i_frames].
    destruct (list_ascii_eqb t letter_I); cbn [app]; rewrite <- ?app_assoc; reflexivity.
Qed.

Lemma parse_lines_inv ls : forall c acc fs,
  parse_lines ls c acc = Some fs -> StronglySorted Z.lt acc ->
  Forall (fun x => 0 <= x < c) acc -> 0 <= c ->
  StronglySorted Z.lt fs /\
  Forall (fun x => 0 <= x < c + Z.of_nat (List.length (filter is_frame_line ls))) fs.
Proof.
  induction ls as [|l t IH]; intros c acc fs H Hs Hf Hc.
  - cbn in H. inversion H; subst. split; [exact Hs|]. cbn [filter List.length].
    rewrite Z.add_0_r. exact Hf.
  - cbn [parse_lines] in H. cbn [filter]. unfold is_frame_line at 1.
    destruct (prefixb pict_type (strip l)) eqn:P.
    + destruct (field1 (strip l)) as [f|]; [|discriminate H].
      assert (Hf' : Forall (fun x => 0 <= x < c + 1) acc)
        by (eapply Forall_impl; [|exact Hf]; cbv beta; intros; lia).
      destruct (list_ascii_eqb f letter_I).
      * destruct (IH _ _ _ H) as [Hs1 Hf1].
        -- apply AlignerFacts.ssorted_snoc; [exact Hs|].
           eapply Forall_impl; [|exact Hf]; cbv beta; intros; lia.
        -- apply Forall_app. split; [exact Hf'|]. constructor; [lia | constructor].
        -- lia.
        -- split; [exact Hs1|]. eapply Forall_impl; [|exact Hf1]; cbv beta.
           cbn [List.length]. intros; lia.
      * destruct (IH _ _ _ H Hs Hf' ltac:(lia)) as [Hs1 Hf1].
        split; [exact Hs1|]. eapply Forall_impl; [|exact Hf1]; cbv beta.
        cbn [List.length]. intros; lia.
    + exact (IH _ _ _ H Hs Hf Hc).
Qed.

Lemma parse_lines_none ls : forall c acc,
  parse_lines ls c acc = None <->
  exists l, In l ls /\ is_frame_line l = true /\ field1 (strip l) = None.
Proof.
  induction ls as [|l t IH]; intros c acc.
  - cbn. split; [discriminate | intros [l [[] _]]].
  - cbn [parse_lines]. unfold is_frame_line at 1.
    destruct (prefixb pict_type (strip l)) eqn:P.
    + destruct (field1 (strip l)) as [f|] eqn:F.
      * destruct (list_ascii_eqb f letter_I); rewrite IH;
          (split; [intros [l' [Hi Hl']]; exists l'; split; [right; exact Hi | exact Hl']|]);
          intros [l' [[<-|Hi] [Hp Hl']]]; [congruence | exists l'; auto | congruence | exists l'; auto].
      * split; [intros _; exists l; split; [left; reflexivity|]; split; [exact P | exact F]|].
        reflexivity.
    + rewrite IH. split.
      * intros [l' [Hi Hl']]. exists l'. split; [right; exact Hi | exact Hl'].
      * intros [l' [[<-|Hi] [Hp Hl']]]; [unfold is_frame_line in Hp; congruence|].
        exists l'. auto.
Qed.

End ProbeFacts.

Module ProbeExtras.
Import Ascii String Files Recovery RecoveryInputs Probe ProbeFacts.

(** [parse_keyframes] reads ffprobe's per-frame blocks: for frames of
    picture types [ts] (no whitespace and no ["="] in a type), it returns
    the indices of the frames of type [I], in order. *)
Theorem parse_keyframes_ffprobe ts :
  Forall (Forall good_char) ts ->
  parse_keyframes (List.concat (map ffprobe_frame ts)) = Some (i_frames ts 0).
Proof. intros H. exact (parse_blocks ts 0 [] H). Qed.

Lemma parse_keyframes_ffprobe_witness :
  parse_keyframes (List.concat (map ffprobe_frame [letter_I; ["P"%char]; ["B"%char]; letter_I]))
    = Some [0; 3].
Proof.
  rewrite (parse_keyframes_ffprobe [letter_I; ["P"%char]; ["B"%char]; letter_I]).
  - reflexivity.
  - repeat constructor; discriminate.
Defined.

(** Whatever the output, the indices [parse_keyframes] returns are
    strictly increasing and lie in [[0, frames)], where [frames] is the
    number of lines that start with [pict_type] once stripped. *)
Theorem parse_keyframes_sorted out fs :
  parse_keyframes out = Some fs ->
  StronglySorted Z.lt fs /\
  Forall (fun x => 0 <= x < Z.of_nat (List.length (filter is_frame_line (splitlines out)))) fs.
Proof.
  intros H. destruct (parse_lines_inv _ _ _ _ H) as [Hs Hf];
    [constructor | constructor | lia |].
  split; [exact Hs | exact Hf].
Qed.

Lemma parse_keyframes_sorted_witness :
  let out := List.concat (map ffprobe_frame [letter_I; ["P"%char]; letter_I]) in
  StronglySorted Z.lt [0; 2] /\
  Forall (fun x => 0 <= x < Z.of_nat (List.length (filter is_frame_line (splitlines out)))) [0; 2].
Proof.
  apply (parse_keyframes_sorted _ [0; 2]). vm_compute. reflexivity.
Defined.

(** [parse_keyframes] raises exactly when some line starting with
    [pict_type] has no ["="]. Such a part, found last after valid parts,
    is then dropped by the resume logic like a part whose last keyframe is
    0: the earlier parts and their keyframes are kept. *)
Theorem parse_keyframes_raises out :
  (parse_keyframes out = None <->
   exists l, In l (splitlines out) /\ is_frame_line l = true /\ field1 (strip l) = None) /\
  (forall files parts kfs f,
     Forall2 (fun p kf => last_keyframe p = Some kf /\ kf <> 0) parts kfs ->
     parse_keyframes out = None ->
     discover files (parts ++ [{| part_file := f; probe := parse_keyframes out |}]) =
       (files, {| kept_parts := parts; keyframes := kfs; fout_ordinal := List.length parts;
                  start_frame := fold_left Z.add kfs 0 |})).
Proof.
  split; [apply parse_lines_none|].
  intros files parts kfs f H Hn. unfold discover.
  rewrite (RecoveryFacts.scan_last_invalid parts kfs _ H); [reflexivity|].
  right. unfold last_keyframe. cbn [probe]. rewrite Hn. reflexivity.
Qed.

Lemma parse_keyframes_raises_witness :
  let out := pict_type ++ [lf] in
  discover files3
    ([p000; p001] ++ [{| part_file := part_path "002"; probe := parse_keyframes out |}]) =
    (files3, {| kept_parts := [p000; p001]; keyframes := [120; 96]; fout_ordinal := 2;
                start_frame := 216 |}).
Proof.
  apply (proj2 (parse_keyframes_raises (pict_type ++ [lf])) files3 [p000; p001] [120; 96]
           (part_path "002")).
  - repeat constructor; vm_compute; congruence.
  - vm_compute. reflexivity.
Defined.

End ProbeExtras.

(* ------------------------------------------------------------------ *)
(** ** [generate_keyframes] with a start frame *)

Module KeyframesFacts.
Import Aligner Keyframes.

Lemma filter_gt_low (s : nat) (l : list nat) :
  Forall (fun i => (i <= s)%nat) l ->
  filter (fun k => Z.of_nat s <? k) (map Z.of_nat l) = [].
Proof.
  induction 1 as [|x l Hx _ IH]; [reflexivity|].
  cbn [map filter]. replace (Z.of_nat s <? Z.of_nat x) with false by (symmetry; apply Z.ltb_ge; lia).
  exact IH.
Qed.

Lemma filter_gt_high (s : nat) (l : list nat) :
  Forall (fun i => (s < i)%nat) l ->
  filter (fun k => Z.of_nat s <? k) (map Z.of_nat l) = map Z.of_nat l.
Proof.
  induction 1 as [|x l Hx _ IH]; [reflexivity|].
  cbn [map filter]. replace (Z.of_nat s <? Z.of_nat x) with true by (symmetry; apply Z.ltb_lt; lia).
  rewrite IH. reflexivity.
Qed.

Lemma shift_seq (s : nat) (p : nat -> bool) (m a : nat) :
  map (fun k => k - Z.of_nat s) (map Z.of_nat (filter p (seq (s + a) m))) =
  map Z.of_nat (filter (fun i => p (s + i)%nat) (seq a m)).
Proof.
  revert a. induction m as [|m IH]; intro a; [reflexivity|].
  cbn [seq filter]. replace (S (s + a)) with (s + S a)%nat by lia.
  destruct (p (s + a)%nat); cbn [map]; rewrite ?IH; [|reflexivity].
  f_equal. lia.
Qed.

Lemma filter_seq_bounds (p : nat -> bool) (a m : nat) (P : nat -> Prop) :
  (forall i, (a <= i < a + m)%nat -> P i) -> Forall P (filter p (seq a m)).
Proof.
  intro H. apply Forall_forall. intros x Hx.
  apply filter_In in Hx as [Hx _]. apply in_seq in Hx. apply H. lia.
Qed.

End KeyframesFacts.

Module KeyframesExtras.
Import Aligner Keyframes KeyframesFacts.

(** A resumed encode starting at [start_frame] (0 < start_frame < number
    of frames) is given the WWXD scene changes of the whole clip that lie
    strictly after [start_frame], renumbered from the start frame; a scene
    change exactly at [start_frame] is not listed. *)
Lemma generate_keyframes_at_shift (sc : list bool) (s : nat) :
  (0 < s < length sc)%nat ->
  generate_keyframes_at sc s =
  Some (map (fun k => k - Z.of_nat s)
            (filter (fun k => Z.of_nat s <? k) (generate_keyframes sc))).
Proof.
  intro Hs. unfold generate_keyframes_at.
  replace (Nat.eqb s 0) with false by (symmetry; apply Nat.eqb_neq; lia).
  replace (Nat.ltb s (length sc)) with true by (symmetry; apply Nat.ltb_lt; lia).
  f_equal. unfold generate_keyframes.
  rewrite length_skipn.
  set (m := (length sc - s - 1)%nat).
  replace (length sc - 1)%nat with (s + m)%nat by lia.
  rewrite seq_app, filter_app, map_app, filter_app.
  rewrite filter_gt_low
    by (apply filter_seq_bounds; intros; lia).
  rewrite filter_gt_high
    by (apply filter_seq_bounds; intros; lia).
  cbn [app]. replace (1 + s)%nat with (s + 1)%nat by lia.
  rewrite shift_seq.
  f_equal. apply filter_ext. intro i. rewrite nth_skipn. reflexivity.
Qed.

Lemma generate_keyframes_at_shift_witness :
  (0 < 20 < length AlignerInputs.sc_17_33)%nat /\
  generate_keyframes_at AlignerInputs.sc_17_33 20 = Some [13].
Proof.
  split; [vm_compute; lia|].
  rewrite (generate_keyframes_at_shift AlignerInputs.sc_17_33 20) by (vm_compute; lia).
  vm_compute. reflexivity.
Defined.

End KeyframesExtras.

(* ------------------------------------------------------------------ *)
(** ** Part names, their glob and their order *)

Module PartNamesFacts.
Import Ascii PartNames.
Local Open Scope nat_scope.

Lemma digits_rev_length (f n k : nat) :
  n < f -> (length (digits_rev f n) <= S k <-> n < 10 ^ S k).
Proof.
  revert n k. induction f as [|f IH]; intros n k Hn; [lia|].
  cbn [digits_rev]. destruct (Nat.ltb_spec n 10) as [Hlt|Hge].
  - cbn [length]. split; intro; [|lia].
    assert (10 <= 10 ^ S k) by (rewrite Nat.pow_succ_r'; pose proof (Nat.pow_nonzero 10 k); lia).
    lia.
  - cbn [length]. destruct k as [|k].
    + cbn. split; intro H; [|lia].
      destruct f as [|f]; [lia|]. cbn [digits_rev length] in H. lia.
    + assert (Hq : n / 10 < f).
      { assert (n / 10 < n) by (apply Nat.div_lt; lia). lia. }
      specialize (IH (n / 10) k Hq).
      assert (n / 10 < 10 ^ S k <-> n < 10 ^ S (S k)).
      { rewrite (Nat.pow_succ_r' 10 (S k)). set (b := 10 ^ S k).
        pose proof (Nat.div_mod_eq n 10). pose proof (Nat.mod_upper_bound n 10 ltac:(lia)).
        lia. }
      lia.
Qed.

Lemma decimal_length_le3 (n : nat) : length (decimal n) <= 3 <-> n < 1000.
Proof.
  unfold decimal. rewrite length_rev. apply (digits_rev_length (S n) n 2). lia.
Qed.

Lemma format_03_length (n : nat) : n < 1000 -> length (format_03 n) = 3.
Proof.
  intro H. apply decimal_length_le3 in H. unfold format_03.
  rewrite length_app, repeat_length. lia.
Qed.

Lemma format_03_long (n : nat) : 1000 <= n -> 3 < length (format_03 n).
Proof.
  intro H. assert (~ length (decimal n) <= 3) by (rewrite decimal_length_le3; lia).
  unfold format_03. rewrite length_app. lia.
Qed.

Lemma digit_char_code (d : nat) : d < 10 -> nat_of_ascii (digit_char d) = 48 + d.
Proof. intro. unfold digit_char. apply nat_ascii_embedding. lia. Qed.

Lemma digits_rev_one (f q : nat) : 0 < f -> q < 10 -> digits_rev f q = [digit_char q].
Proof.
  intros Hf Hq. destruct f as [|f]; [lia|]. cbn [digits_rev].
  replace (q <? 10) with true by (symmetry; apply Nat.ltb_lt; exact Hq).
  rewrite Nat.mod_small by exact Hq. reflexivity.
Qed.

Lemma digits_rev_two (f q : nat) : 1 < f -> 10 <= q < 100 ->
  digits_rev f q = [digit_char (q mod 10); digit_char (q / 10)].
Proof.
  intros Hf Hq. destruct f as [|f]; [lia|]. cbn [digits_rev].
  replace (q <? 10) with false by (symmetry; apply Nat.ltb_ge; lia).
  rewrite digits_rev_one; [reflexivity | lia |].
  apply Nat.Div0.div_lt_upper_bound. lia.
Qed.

Lemma format_03_digits (n : nat) : n < 1000 ->
  format_03 n = [digit_char (n / 100); digit_char (n / 10 mod 10); digit_char (n mod 10)].
Proof.
  intro Hn. unfold format_03, decimal.
  destruct (Nat.lt_ge_cases n 10) as [H1|H1].
  - rewrite digits_rev_one by lia.
    rewrite (Nat.div_small n 100), (Nat.div_small n 10), (Nat.mod_small n 10) by lia.
    reflexivity.
  - destruct (Nat.lt_ge_cases n 100) as [H2|H2].
    + rewrite digits_rev_two by lia.
      rewrite (Nat.div_small n 100) by lia.
      rewrite (Nat.mod_small (n / 10) 10) by (apply Nat.Div0.div_lt_upper_bound; lia).
      reflexivity.
    + cbn [digits_rev].
      replace (n <? 10) with false by (symmetry; apply Nat.ltb_ge; lia).
      rewrite digits_rev_two
        by first [lia | split; [apply Nat.div_le_lower_bound | apply Nat.Div0.div_lt_upper_bound]; lia].
      rewrite Nat.Div0.div_div.
      reflexivity.
Qed.

Lemma wild_match_length (p s : list ascii) : wild_match p s = true -> length p = length s.
Proof.
  revert s. induction p as [|a p IH]; intros [|c s] H; cbn in H; try discriminate; [reflexivity|].
  apply andb_prop in H as [_ H]. cbn. f_equal. apply IH, H.
Qed.

Lemma wild_match_app (p1 p2 s1 s2 : list ascii) :
  length p1 = length s1 ->
  wild_match (p1 ++ p2) (s1 ++ s2) = wild_match p1 s1 && wild_match p2 s2.
Proof.
  revert s1. induction p1 as [|a p1 IH]; intros [|c s1] H; cbn in H; try discriminate.
  - reflexivity.
  - cbn [app wild_match]. rewrite IH by lia. rewrite andb_assoc. reflexivity.
Qed.

Lemma wild_match_refl (l : list ascii) : Forall glob_safe l -> wild_match l l = true.
Proof.
  induction 1 as [|c l [Hs [Hb Hsl]] _ IH]; [reflexivity|].
  cbn [wild_match]. rewrite IH, andb_true_r.
  destruct (Ascii.eqb_spec c "?"%char) as [->|_]; [reflexivity|].
  apply Ascii.eqb_refl.
Qed.

Lemma digit_not_slash (d : nat) : d < 10 -> Ascii.eqb (digit_char d) "/"%char = false.
Proof.
  intro H. apply Ascii.eqb_neq. intro E.
  apply (f_equal nat_of_ascii) in E. rewrite digit_char_code in E by exact H.
  cbn in E. lia.
Qed.

Lemma lex_compare_prefix (p a b : list ascii) :
  lex_compare (p ++ a) (p ++ b) = lex_compare a b.
Proof.
  induction p as [|c p IH]; [reflexivity|]. cbn. rewrite Nat.compare_refl. exact IH.
Qed.

Lemma lex_compare_refl (a : list ascii) : lex_compare a a = Eq.
Proof. rewrite <- (app_nil_r a) at 1 2. rewrite lex_compare_prefix. reflexivity. Qed.

Lemma lex_compare_digit (d e : nat) : d < 10 -> e < 10 ->
  Nat.compare (nat_of_ascii (digit_char d)) (nat_of_ascii (digit_char e)) = Nat.compare d e.
Proof.
  intros Hd He. rewrite !digit_char_code by assumption.
  destruct (Nat.compare_spec d e) as [->|H|H].
  - apply Nat.compare_refl.
  - apply Nat.compare_lt_iff. lia.
  - apply Nat.compare_gt_iff. lia.
Qed.

End PartNamesFacts.

Module PartNamesExtras.
Import Ascii PartNames PartNamesFacts.
Local Open Scope nat_scope.

Lemma part_infix_safe : Forall glob_safe part_infix.
Proof. repeat constructor; discriminate. Qed.

(** For an output name whose stem and suffix hold no [*], [[] or [/], the
    glob [<stem>_part_???<suffix>] with which the encoder looks for earlier
    parts matches the name it gives part [n] exactly when [n < 1000]: from
    the thousandth part on, the name has four digits and earlier parts
    are no longer found. *)
Theorem part_glob_matches (stem suffix : list ascii) (n : nat) :
  Forall glob_safe stem -> Forall glob_safe suffix ->
  (wild_match (part_glob stem suffix) (part_name stem suffix n) = true <-> n < 1000).
Proof.
  intros Hstem Hsfx. unfold part_glob, part_name.
  rewrite wild_match_app, wild_match_refl by (reflexivity || exact Hstem).
  rewrite wild_match_app, wild_match_refl by (reflexivity || exact part_infix_safe).
  cbn [andb]. split.
  - intro H. destruct (Nat.lt_ge_cases n 1000) as [Hn|Hn]; [exact Hn|].
    apply wild_match_length in H. rewrite !length_app in H. cbn [length] in H.
    pose proof (format_03_long n Hn). lia.
  - intro Hn. rewrite wild_match_app by (symmetry; apply format_03_length, Hn).
    rewrite (wild_match_refl suffix Hsfx), andb_true_r.
    rewrite (format_03_digits n Hn). cbn [wild_match Ascii.eqb].
    assert (n / 100 < 10) by (apply Nat.Div0.div_lt_upper_bound; lia).
    rewrite !digit_not_slash by (assumption || apply Nat.mod_upper_bound; lia).
    reflexivity.
Qed.

Lemma part_glob_matches_witness :
  wild_match (part_glob ["e"; "n"; "c"]%char ["."; "2"; "6"; "5"]%char)
             (part_name ["e"; "n"; "c"]%char ["."; "2"; "6"; "5"]%char 7) = true.
Proof.
  apply (part_glob_matches ["e"; "n"; "c"]%char ["."; "2"; "6"; "5"]%char 7);
    [repeat constructor; discriminate | repeat constructor; discriminate | lia].
Defined.

(** Below a thousand parts, [sorted()] orders the part files of one
    output by their number: comparing the names of parts [n] and [m] gives
    the comparison of [n] and [m]. *)
Theorem part_names_sorted (stem suffix : list ascii) (n m : nat) :
  n < 1000 -> m < 1000 ->
  lex_compare (part_name stem suffix n) (part_name stem suffix m) = Nat.compare n m.
Proof.
  intros Hn Hm. unfold part_name.
  rewrite !lex_compare_prefix, (format_03_digits n Hn), (format_03_digits m Hm).
  cbn [app lex_compare].
  assert (n / 100 < 10) by (apply Nat.Div0.div_lt_upper_bound; lia).
  assert (m / 100 < 10) by (apply Nat.Div0.div_lt_upper_bound; lia).
  pose proof (Nat.mod_upper_bound n 10 ltac:(lia)).
  pose proof (Nat.mod_upper_bound m 10 ltac:(lia)).
  pose proof (Nat.mod_upper_bound (n / 10) 10 ltac:(lia)).
  pose proof (Nat.mod_upper_bound (m / 10) 10 ltac:(lia)).
  rewrite !lex_compare_digit by assumption. rewrite lex_compare_refl.
  pose proof (Nat.div_mod_eq n 10). pose proof (Nat.div_mod_eq (n / 10) 10).
  pose proof (Nat.div_mod_eq m 10). pose proof (Nat.div_mod_eq (m / 10) 10).
  assert (n / 10 / 10 = n / 100) by (rewrite Nat.Div0.div_div; reflexivity).
  assert (m / 10 / 10 = m / 100) by (rewrite Nat.Div0.div_div; reflexivity).
  destruct (Nat.compare_spec (n / 100) (m / 100));
    [destruct (Nat.compare_spec (n / 10 mod 10) (m / 10 mod 10));
      [destruct (Nat.compare_spec (n mod 10) (m mod 10))|..]|..];
    first [ symmetry; apply Nat.compare_eq_iff; lia
          | symmetry; apply Nat.compare_lt_iff; lia
          | symmetry; apply Nat.compare_gt_iff; lia ].
Qed.

Lemma part_names_sorted_witness :
  lex_compare (part_name ["e"; "n"; "c"]%char ["."; "2"; "6"; "5"]%char 7)
              (part_name ["e"; "n"; "c"]%char ["."; "2"; "6"; "5"]%char 12) = Lt.
Proof.
  rewrite (part_names_sorted ["e"; "n"; "c"]%char ["."; "2"; "6"; "5"]%char 7 12) by lia.
  reflexivity.
Defined.

End PartNamesExtras.

(* ------------------------------------------------------------------ *)
(** ** [_pixfmt_for_clip] *)

Module PixFmtFacts.
Import Ascii PixFmt.
Local Open Scope nat_scope.

Lemma str_replace_cons (c : ascii) (t : list ascii) :
  c <> "P"%char ->
  str_replace str_P8 str_P (c :: t) = c :: str_replace str_P8 str_P t.
Proof.
  intro Hc. unfold str_replace. cbn [List.length replace_fuel].
  replace (prefixb str_P8 (c :: t)) with false; [reflexivity|].
  unfold str_P8. cbn [prefixb].
  replace (Ascii.eqb "P"%char c) with false by (symmetry; apply Ascii.eqb_neq; congruence).
  reflexivity.
Qed.

Lemma str_replace_app (u t : list ascii) :
  Forall (fun c => c <> "P"%char) u ->
  str_replace str_P8 str_P (u ++ t) = u ++ str_replace str_P8 str_P t.
Proof.
  induction 1 as [|c u Hc _ IH]; [reflexivity|].
  cbn [app]. rewrite str_replace_cons by exact Hc. rewrite IH. reflexivity.
Qed.

Lemma lower_digit (c : ascii) : is_digit c -> lower_char c = c.
Proof.
  unfold is_digit, lower_char. intro H.
  replace (65 <=? nat_of_ascii c) with false by (symmetry; apply Nat.leb_gt; lia).
  reflexivity.
Qed.

Lemma lower_digits (l : list ascii) : Forall is_digit l -> lower l = l.
Proof.
  induction 1 as [|c l Hc _ IH]; [reflexivity|].
  unfold lower in *. cbn [map]. rewrite lower_digit, IH by exact Hc. reflexivity.
Qed.

Lemma digit_not_P (c : ascii) : is_digit c -> c <> "P"%char.
Proof. unfold is_digit. intros H ->. cbn in H. lia. Qed.

Lemma yuv_prefix_replace (sub t : list ascii) :
  Forall is_digit sub ->
  str_replace str_P8 str_P (["Y"; "U"; "V"]%char ++ sub ++ t) =
  ["Y"; "U"; "V"]%char ++ sub ++ str_replace str_P8 str_P t.
Proof.
  intro H. rewrite app_assoc, str_replace_app, <- app_assoc; [reflexivity|].
  apply Forall_app. split; [repeat constructor; discriminate|].
  eapply Forall_impl; [exact digit_not_P | exact H].
Qed.

Lemma yuv_prefix_lower (sub t : list ascii) :
  Forall is_digit sub ->
  lower (["Y"; "U"; "V"]%char ++ sub ++ t) = ["y"; "u"; "v"]%char ++ sub ++ lower t.
Proof.
  intro H. unfold lower at 1. rewrite !map_app.
  change (map lower_char sub) with (lower sub). rewrite (lower_digits sub H).
  reflexivity.
Qed.

End PixFmtFacts.

Module PixFmtExtras.
Import Ascii String PixFmt PixFmtFacts.
Local Open Scope nat_scope.

(** For an integer YUV format, named [YUV<subsampling>P<bits>] with
    [bits] one of 8, 10, 12, 14, 16, the ffmpeg pixel format is the
    lower-cased name without the bit depth for 8 bits
    ([yuv<subsampling>p]) and with [le] appended otherwise
    ([yuv<subsampling>p<bits>le]). *)
Theorem pixfmt_for_clip_integer (sub : list ascii) (bits : nat) :
  Forall is_digit sub -> In bits allowed_depths ->
  pixfmt_for_clip {| color_family_of := YUV; bits_per_sample := bits;
                     fmt_name := ["Y"; "U"; "V"]%char ++ sub ++ "P"%char :: PartNames.decimal bits |} =
  inr (["y"; "u"; "v"]%char ++ sub ++
       "p"%char :: (if bits =? 8 then [] else PartNames.decimal bits ++ str_le)).
Proof.
  intros Hsub Hbits. unfold pixfmt_for_clip. cbn [color_family_of bits_per_sample fmt_name].
  rewrite yuv_prefix_replace, yuv_prefix_lower by exact Hsub.
  destruct Hbits as [<-|[<-|[<-|[<-|[<-|[]]]]]]; cbn; rewrite <- ?app_assoc; reflexivity.
Qed.

Lemma pixfmt_for_clip_integer_witness :
  pixfmt_for_clip {| color_family_of := YUV; bits_per_sample := 10;
                     fmt_name := ["Y"; "U"; "V"; "4"; "2"; "0"; "P"; "1"; "0"]%char |} =
  inr ["y"; "u"; "v"; "4"; "2"; "0"; "p"; "1"; "0"; "l"; "e"]%char.
Proof.
  apply (pixfmt_for_clip_integer ["4"; "2"; "0"]%char 10);
    [repeat constructor; unfold is_digit; cbn; lia | cbn; tauto].
Defined.

(** The bit-depth check does not look at the sample type: a half-float
    YUV format ([YUV<subsampling>PH], 16 bits) is accepted and gives
    [yuv<subsampling>phle], while a single-float one ([...PS], 32 bits) is
    refused with the bit-depth error. *)
Theorem pixfmt_for_clip_float (sub : list ascii) :
  Forall is_digit sub ->
  pixfmt_for_clip {| color_family_of := YUV; bits_per_sample := 16;
                     fmt_name := ["Y"; "U"; "V"]%char ++ sub ++ ["P"; "H"]%char |} =
  inr (["y"; "u"; "v"]%char ++ sub ++ ["p"; "h"; "l"; "e"]%char) /\
  pixfmt_for_clip {| color_family_of := YUV; bits_per_sample := 32;
                     fmt_name := ["Y"; "U"; "V"]%char ++ sub ++ ["P"; "S"]%char |} =
  inl "Only the following bitdepths are allowed: 8, 10, 12, 14, 16"%string.
Proof.
  intro Hsub. split; [|reflexivity].
  unfold pixfmt_for_clip. cbn [color_family_of bits_per_sample fmt_name].
  rewrite yuv_prefix_replace, yuv_prefix_lower by exact Hsub.
  cbn. rewrite <- ?app_assoc. reflexivity.
Qed.

Lemma pixfmt_for_clip_float_witness :
  pixfmt_for_clip {| color_family_of := YUV; bits_per_sample := 16;
                     fmt_name := ["Y"; "U"; "V"; "4"; "4"; "4"; "P"; "H"]%char |} =
  inr ["y"; "u"; "v"; "4"; "4"; "4"; "p"; "h"; "l"; "e"]%char.
Proof.
  apply (pixfmt_for_clip_float ["4"; "4"; "4"]%char).
  repeat constructor; unfold is_digit; cbn; lia.
Defined.

End PixFmtExtras.

(* ------------------------------------------------------------------ *)
(** ** The commands [merge_parts] runs *)

Module MergeCmdFacts.
Import Files Merge MergeSpec MergeFacts String.

Section OkRunner.
Variable run : runner.
Hypothesis run_ok : forall c fs, fst (run c fs) <= 1.

Lemma split_parts_ok kps : forall td mp w,
  exists w' new,
    split_parts run kps td mp w = (inr (td ++ part_splits kps, mp ++ part_firsts kps), w') /\
    invoked w' = invoked w ++ new /\
    map fst new = map (fun kp => MkvSplit (with_suffix (snd kp) ".mkv") (fst kp) (snd kp)) kps.
Proof.
  induction kps as [|[kf part] t IH]; intros td mp w.
  - exists w, []. rewrite !app_nil_r. repeat split.
  - cbn [split_parts]. rewrite bind_run_cmd.
    replace (Z.ltb 1 (fst (run (MkvSplit (with_suffix part ".mkv") kf part) (files w))))
      with false by (symmetry; apply Z.ltb_ge, run_ok).
    match goal with |- context [split_parts run t ?td' ?mp' ?w1] =>
      destruct (IH td' mp' w1) as [w' [new [E [Hi Hm]]]] end.
    rewrite E. exists w', ((MkvSplit (with_suffix part ".mkv") kf part,
                          fst (run (MkvSplit (with_suffix part ".mkv") kf part) (files w))) :: new).
    split; [|split].
    + unfold part_splits, part_firsts. cbn [flat_map map snd]. rewrite <- !app_assoc. reflexivity.
    + rewrite Hi. cbn [invoked]. rewrite <- app_assoc. reflexivity.
    + cbn [map fst snd]. rewrite Hm. reflexivity.
Qed.

(** A merge where every command reports a status of at most 1 and
    [keyframes] and [parts] pair up at least once. *)
Lemma merge_parts_ok last out kfs parts w :
  combine kfs parts <> [] ->
  exists w' new,
    merge_parts run last out kfs parts w = (inr tt, w') /\
    invoked w' = invoked w ++ new /\
    map fst new = merge_commands last out kfs parts /\
    forall f, In f (merge_deleted last out kfs parts) -> ~ In f (files w').
Proof.
  intro Hne. unfold merge_parts, merge_commands, merge_deleted.
  destruct (combine kfs parts) as [|kp kps] eqn:Ec; [congruence|].
  destruct (split_parts_ok (kp :: kps) [] [] w) as [w1 [new1 [E [Hi1 Hm1]]]].
  rewrite (bind_inr _ _ _ _ _ E). cbn [fst snd app part_firsts map List.length Nat.ltb Nat.leb].
  rewrite !bind_run_cmd.
  set (last_mkv := with_suffix last ".mkv").
  set (out_mkv := with_suffix out ".mkv").
  set (c1 := MkvRemux last_mkv last).
  set (w2 := {| files := snd (run c1 (files w1));
                invoked := invoked w1 ++ [(c1, fst (run c1 (files w1)))] |}).
  replace (Z.ltb 1 (fst (run c1 (files w1)))) with false by (symmetry; apply Z.ltb_ge, run_ok).
  rewrite bind_run_cmd. fold w2.
  set (c2 := MkvAppend out_mkv _).
  set (w3 := {| files := snd (run c2 (files w2));
                invoked := invoked w2 ++ [(c2, fst (run c2 (files w2)))] |}).
  replace (Z.ltb 1 (fst (run c2 (files w2)))) with false by (symmetry; apply Z.ltb_ge, run_ok).
  rewrite bind_run_cmd. fold w3.
  set (c3 := MkvExtract out_mkv out).
  set (w4 := {| files := snd (run c3 (files w3));
                invoked := invoked w3 ++ [(c3, fst (run c3 (files w3)))] |}).
  replace (Z.ltb 1 (fst (run c3 (files w3)))) with false by (symmetry; apply Z.ltb_ge, run_ok).
  fold w4. rewrite unlink_all_eq.
  set (L := ((part_splits (kp :: kps) ++ parts) ++ [last_mkv; last]) ++ [out_mkv]).
  destruct (unlink_all_spec L w4) as [_ [Hi Hf]].
  exists (snd (unlink_all L w4)),
    (new1 ++ [(c1, fst (run c1 (files w1))); (c2, fst (run c2 (files w2)));
              (c3, fst (run c3 (files w3)))]).
  split; [reflexivity|]. split; [|split].
  - rewrite Hi. unfold w4, w3, w2. cbn [invoked]. rewrite Hi1, <- !app_assoc. reflexivity.
  - rewrite map_app, Hm1. reflexivity.
  - intros f Hin Hw. apply Hf in Hw as [_ Hw]. apply Hw.
    unfold L. cbv beta iota in Hin.
    rewrite !in_app_iff in Hin |- *. cbn [In] in Hin |- *. rewrite ?in_app_iff. tauto.
Qed.

End OkRunner.

Lemma in_combine_firstn {A B} (l1 : list A) (l2 : list B) kp :
  In kp (combine l1 l2) -> In (snd kp) (firstn (List.length l1) l2).
Proof.
  revert l2. induction l1 as [|a l1 IH]; intros [|b l2] H; cbn in H |- *; try contradiction.
  destruct H as [<-|H]; [left; reflexivity | right; apply IH, H].
Qed.

Lemma nodup_not_in_firstn {A} (l : list A) : NoDup l -> forall i k p,
  nth_error l i = Some p -> (k <= i)%nat -> ~ In p (firstn k l).
Proof.
  induction 1 as [|a l Ha Hnd IH]; intros i k p Hp Hk.
  - destruct i; discriminate.
  - destruct k as [|k]; [cbn; tauto|]. destruct i as [|i]; [lia|].
    cbn in Hp |- *. intros [<-|H].
    + apply Ha, (nth_error_In _ _ Hp).
    + apply (IH i k p Hp ltac:(lia) H).
Qed.

Lemma merge_commands_inputs last out kfs parts c f :
  In c (merge_commands last out kfs parts) -> In f (cmd_inputs c) ->
  In f (firstn (List.length kfs) parts) \/ f = last \/ psuffix f = ".mkv"%string.
Proof.
  unfold merge_commands. rewrite in_app_iff, in_map_iff. cbn [In].
  intros [[kp [<- Hkp]] | [<- | [<- | [<- | []]]]] Hf; cbn [cmd_inputs In] in Hf.
  - destruct Hf as [<-|[]]. left. apply in_combine_firstn, Hkp.
  - destruct Hf as [<-|[]]. right. left. reflexivity.
  - right. right. apply in_app_iff in Hf as [Hf|[<-|[]]]; [|reflexivity].
    unfold part_firsts in Hf. apply in_map_iff in Hf as [kp [<- _]]. reflexivity.
  - destruct Hf as [<-|[]]. right. right. reflexivity.
Qed.

End MergeCmdFacts.

Module MergeCmdExtras.
Import Files Merge MergeSpec MergeFacts MergeInputs MergeCmdFacts String.

(** When every mkvtoolnix command reports a status of at most 1 and at
    least one (keyframe, part) pair exists, [merge_parts] succeeds after
    running exactly: one [--split frames:kf] per pair, in the order of the
    parts; the remux of the last part to [.mkv]; the append of the [-001]
    halves, in order, followed by the remuxed last part; and the
    [mkvextract] of the appended file into the output. *)
Theorem merge_parts_commands (run : runner) (last out : path) (kfs : list Z)
    (parts : list path) (w : world) :
  (forall c fs, fst (run c fs) <= 1) -> combine kfs parts <> [] ->
  exists w' new,
    merge_parts run last out kfs parts w = (inr tt, w') /\
    invoked w' = invoked w ++ new /\
    map fst new = merge_commands last out kfs parts.
Proof.
  intros Hok Hne.
  destruct (merge_parts_ok run Hok last out kfs parts w Hne) as [w' [new [E [Hi [Hm _]]]]].
  exists w', new. auto.
Qed.

Lemma merge_parts_commands_witness :
  exists w' new,
    merge_parts ok_runner m_last m_out [120] [m_part] world0 = (inr tt, w') /\
    invoked w' = invoked world0 ++ new /\
    map fst new = merge_commands m_last m_out [120] [m_part].
Proof.
  apply (merge_parts_commands ok_runner m_last m_out [120] [m_part] world0).
  - intros c fs. unfold ok_runner. cbn [fst]. lia.
  - discriminate.
Defined.

(** [zip(keyframes, parts)] drops the parts beyond the number of
    keyframes: such a part (not a [.mkv] file, not the last part, parts
    distinct) is read by none of the commands of a successful merge, yet
    it is deleted with the others, so its frames are lost from the
    output. *)
Theorem merge_parts_unmerged_tail (run : runner) (last out : path) (kfs : list Z)
    (parts : list path) (w : world) (i : nat) (p : path) :
  (forall c fs, fst (run c fs) <= 1) -> kfs <> [] -> NoDup parts ->
  nth_error parts i = Some p -> (List.length kfs <= i)%nat ->
  psuffix p <> ".mkv"%string -> p <> last ->
  exists w' new,
    merge_parts run last out kfs parts w = (inr tt, w') /\
    invoked w' = invoked w ++ new /\
    (forall cs, In cs new -> ~ In p (cmd_inputs (fst cs))) /\
    ~ In p (files w').
Proof.
  intros Hok Hk Hnd Hp Hi Hsfx Hlast.
  assert (Hne : combine kfs parts <> []).
  { destruct kfs as [|k kfs]; [congruence|]. destruct parts as [|q parts].
    - destruct i; discriminate.
    - discriminate. }
  destruct (merge_parts_ok run Hok last out kfs parts w Hne) as [w' [new [E [Hinv [Hm Hdel]]]]].
  exists w', new. split; [exact E|]. split; [exact Hinv|]. split.
  - intros cs Hcs Hin.
    assert (Hc : In (fst cs) (merge_commands last out kfs parts))
      by (rewrite <- Hm; apply in_map, Hcs).
    destruct (merge_commands_inputs _ _ _ _ _ _ Hc Hin) as [H|[H|H]].
    + exact (nodup_not_in_firstn parts Hnd i _ p Hp Hi H).
    + exact (Hlast H).
    + exact (Hsfx H).
  - apply Hdel. unfold merge_deleted.
    destruct (combine kfs parts) as [|kp kps]; [congruence|].
    apply in_app_iff. right. apply in_app_iff. left. exact (nth_error_In _ _ Hp).
Qed.

Lemma merge_parts_unmerged_tail_witness :
  exists w' new,
    merge_parts ok_runner {| pstem := "encoded_part_002"; psuffix := ".265" |} m_out
      [120] [m_part; m_last] world0 = (inr tt, w') /\
    invoked w' = invoked world0 ++ new /\
    (forall cs, In cs new -> ~ In m_last (cmd_inputs (fst cs))) /\
    ~ In m_last (files w').
Proof.
  apply (merge_parts_unmerged_tail ok_runner {| pstem := "encoded_part_002"; psuffix := ".265" |}
           m_out [120] [m_part; m_last] world0 1 m_last).
  - intros c fs. unfold ok_runner. cbn [fst]. lia.
  - discriminate.
  - repeat constructor; cbn; intuition discriminate.
  - reflexivity.
  - cbn. lia.
  - discriminate.
  - discriminate.
Defined.

(** With no (keyframe, part) pair but earlier parts present (no
    keyframes), [merge_parts] deletes every earlier part first and only
    then renames the last part, running no command: if the last part is
    missing, the rename raises after the parts are gone; if it is there
    (and is not one of the parts), the work directory ends with the
    output path, the files that were neither a part nor the last part,
    and nothing else. *)
Theorem merge_parts_unlinks_before_rename (run : runner) (last out : path)
    (kfs : list Z) (parts : list path) (w : world) :
  combine kfs parts = [] ->
  (~ In last (files w) ->
   exists w',
     merge_parts run last out kfs parts w = (inl "FileNotFoundError"%string, w') /\
     invoked w' = invoked w /\
     forall f, In f (files w') <-> In f (files w) /\ ~ In f parts) /\
  (In last (files w) -> ~ In last parts ->
   exists w',
     merge_parts run last out kfs parts w = (inr tt, w') /\
     invoked w' = invoked w /\
     forall f, In f (files w') <->
               f = out \/ (In f (files w) /\ ~ In f parts /\ f <> last)).
Proof.
  intros Ec. destruct (unlink_all_spec parts w) as [_ [Hi Hf]].
  split; [intros Hl | intros Hl Hnl];
    unfold merge_parts; rewrite Ec; cbn [split_parts];
    unfold bind at 1, ret; cbn [fst snd app List.length Nat.ltb Nat.leb];
    rewrite (bind_inr _ _ _ _ _ (unlink_all_eq parts w)); unfold rename.
  - 
    replace (existsb (path_eqb last) (files (snd (unlink_all parts w)))) with false.
    + exists (snd (unlink_all parts w)). split; [reflexivity|]. split; [exact Hi | exact Hf].
    + symmetry. apply not_true_iff_false. rewrite existsb_path_In, Hf. tauto.
  - replace (existsb (path_eqb last) (files (snd (unlink_all parts w)))) with true
      by (symmetry; apply existsb_path_In, Hf; tauto).
    eexists. split; [reflexivity|]. split; [exact Hi|].
    intros f. cbn [files In]. rewrite !in_remove_path, Hf. split.
    + intros [<-|[[[A B] C] _]]; [left; reflexivity | right; tauto].
    + intros [<-|[A [B C]]]; [left; reflexivity|].
      destruct (path_eqb f out) eqn:E; [left; symmetry; apply path_eqb_eq, E|].
      right. split; [tauto|]. intros ->.
      rewrite (proj2 (path_eqb_eq out out) eq_refl) in E. discriminate E.
Qed.

Lemma merge_parts_unlinks_before_rename_witness :
  (exists w',
     merge_parts ok_runner m_last m_out [] [m_part]
       {| files := [m_part]; invoked := [] |} = (inl "FileNotFoundError"%string, w') /\
     invoked w' = [] /\
     forall f, In f (files w') <-> In f [m_part] /\ ~ In f [m_part]) /\
  (exists w',
     merge_parts ok_runner m_last m_out [] [m_part] world0 = (inr tt, w') /\
     invoked w' = [] /\
     forall f, In f (files w') <->
               f = m_out \/ (In f [m_part; m_last] /\ ~ In f [m_part] /\ f <> m_last)).
Proof.
  split.
  - apply (merge_parts_unlinks_before_rename ok_runner m_last m_out [] [m_part]
             {| files := [m_part]; invoked := [] |}).
    + reflexivity.
    + cbn. intros [H|[]]. discriminate.
  - apply (merge_parts_unlinks_before_rename ok_runner m_last m_out [] [m_part] world0).
    + reflexivity.
    + right. left. reflexivity.
    + cbn. intros [H|[]]. discriminate.
Defined.

End MergeCmdExtras.

(* ------------------------------------------------------------------ *)
(** ** Origin of the aligner's cuts *)

Module AlignerOriginFacts.
Import Aligner AlignerSpec AlignerFacts AlignerTraceFacts AlignerOrigin.

Lemma adjacent_ok_snoc R l x :
  adjacent_ok R l -> l <> [] -> R (last l 0) x -> adjacent_ok R (l ++ [x]).
Proof.
  induction l as [|a t IH]; intros Hg Hne Hx; [congruence|].
  destruct t as [|b t]; cbn in *; [tauto|].
  destruct Hg as [Hab Hg]. split; [exact Hab|]. apply IH; [exact Hg | discriminate | exact Hx].
Qed.

Lemma adjacent_ok_prefix R l x : adjacent_ok R (l ++ [x]) -> adjacent_ok R l.
Proof.
  induction l as [|a t IH]; intros H; [exact I|].
  destruct t as [|b t]; [exact I|]. cbn in H |- *. destruct H as [Hab H].
  split; [exact Hab | apply IH, H].
Qed.

Lemma get_all_frames sc k :
  0 <= k < Z.of_nat (length (generate_keyframes sc)) ->
  In (get (all_frames sc) k) (generate_keyframes sc).
Proof.
  intro Hk. unfold get, all_frames. rewrite app_nth1 by lia. apply nth_In. lia.
Qed.

Section Run.
Variable P : params.
Variable sc : list bool.
Variable diff : Z -> Q.
Hypothesis HP : valid P.

Let F := all_frames sc.
Let n := Z.of_nat (length sc).
Let R := hint_or_still P sc.

Lemma len_all_frames : len F = Z.of_nat (length (generate_keyframes sc)) + 1.
Proof. unfold len, F, all_frames. rewrite length_app. cbn [length]. lia. Qed.

Lemma last_all_frames : get F (len F - 1) = n.
Proof.
  rewrite len_all_frames. unfold get, F, all_frames.
  replace (Z.to_nat (Z.of_nat (length (generate_keyframes sc)) + 1 - 1))
    with (length (generate_keyframes sc)) by lia.
  rewrite nth_middle. reflexivity.
Qed.

Lemma step_origin st st' :
  inv P F st -> running F st -> adjacent_ok R (svt_av1_frames st) ->
  step P n diff F st = Some st' ->
  adjacent_ok R (svt_av1_frames st') \/
  (svt_av1_frames st' = svt_av1_frames st ++ [n] /\ head st' = len F - 1).
Proof.
  intros Hi Hr Ha Hs. unfold running in Hr.
  destruct Hi as [Hh [Hc [Hk [Ho1 [Ho2 [Ho3 Ho4]]]]]].
  pose proof len_all_frames as HlF. pose proof last_all_frames as Hlast.
  unfold step in Hs. cbv zeta in Hs.
  set (h := head st + 1) in *. set (cur := current_frame st) in *.
  destruct (get F h - cur <? min_scene_length P).
  - destruct (negb (h =? Z.of_nat (length F) - 1)) eqn:E2; injection Hs as <-.
    + left. exact Ha.
    + right. apply negb_false_iff, Z.eqb_eq in E2. fold (len F) in E2.
      cbn [head svt_av1_frames]. rewrite E2, Hlast. split; reflexivity.
  - destruct (get F h - cur <=? max_scene_length P).
    + set (avail := take_within (max_scene_length P) cur (skipn (Z.to_nat h) F)) in *.
      assert (Hsel : exists sel,
                 match search_structures [32; 16; 8; 4; 2] avail cur with
                 | Some i => i
                 | None => (length avail - 1)%nat
                 end = sel /\ (sel < length avail \/ sel = 0)%nat).
      { destruct (search_structures [32; 16; 8; 4; 2] avail cur) as [i|] eqn:Ess.
        - exists i. split; [reflexivity|]. left. eapply search_structures_lt; exact Ess.
        - exists (length avail - 1)%nat. split; [reflexivity | lia]. }
      destruct Hsel as [sel [Es Hsl]]. rewrite Es in Hs. injection Hs as <-.
      cbn [head svt_av1_frames].
      assert (Hla : (length avail <= length F - Z.to_nat h)%nat).
      { unfold avail. rewrite <- length_skipn. apply take_within_length. }
      destruct (Z.eq_dec (h + Z.of_nat sel) (len F - 1)) as [Heq|Hneq].
      * right. rewrite Heq, Hlast. split; reflexivity.
      * left. apply adjacent_ok_snoc; [exact Ha | exact Ho1|]. left.
        apply get_all_frames.
        assert (Hhd : h = head st + 1) by reflexivity.
        assert (Z.of_nat (Z.to_nat h) = h) by (apply Z2Nat.id; lia).
        assert (h + Z.of_nat sel <= len F - 1) by (unfold len in *; lia).
        lia.
    + destruct (fallback P n diff cur) as [sel|] eqn:Ef; [|discriminate].
      injection Hs as <-. left. cbn [head svt_av1_frames]. apply adjacent_ok_snoc; [exact Ha | exact Ho1|].
      right. rewrite Ho3. fold cur. pose proof (fallback_lower P n diff cur sel HP Ef). lia.
Qed.

Lemma loop_origin (HF : frames_wf n F) : forall fuel st st',
  inv P F st -> running F st -> adjacent_ok R (svt_av1_frames st) ->
  loop P n diff F fuel st = Some st' ->
  exists out0, svt_av1_frames st' = out0 ++ [n] /\ adjacent_ok R out0.
Proof.
  induction fuel as [|k IH]; intros st st' Hi Hr Ha Hl.
  - cbn in Hl. replace (head st <? Z.of_nat (length F) - 1) with true in Hl
      by (symmetry; apply Z.ltb_lt; exact Hr). discriminate.
  - cbn in Hl. replace (head st <? Z.of_nat (length F) - 1) with true in Hl
      by (symmetry; apply Z.ltb_lt; exact Hr).
    destruct (step_progress P n diff F st HP HF Hi Hr) as [s1 [Es [[Hr1 [Hi1 _]] | Hf]]];
      rewrite Es in Hl; destruct (step_origin st s1 Hi Hr Ha Es) as [Ha1 | [Hs1 Hh1]].
    + exact (IH s1 st' Hi1 Hr1 Ha1 Hl).
    + exfalso. unfold running in Hr1. lia.
    + destruct Hf as [Hh [out0 [Ho _]]].
      destruct k; cbn in Hl;
        (replace (head s1 <? Z.of_nat (length F) - 1) with false in Hl
           by (symmetry; apply Z.ltb_ge; unfold len in Hh; lia));
        injection Hl as <-; exists out0; (split; [exact Ho|]);
        rewrite Ho in Ha1; exact (adjacent_ok_prefix _ _ _ Ha1).
    + destruct Hf as [Hh [out0 [Ho _]]].
      destruct k; cbn in Hl;
        (replace (head s1 <? Z.of_nat (length F) - 1) with false in Hl
           by (symmetry; apply Z.ltb_ge; unfold len in Hh; lia));
        injection Hl as <-; exists out0; (split; [exact Ho|]);
        rewrite Ho in Hs1; apply app_inj_tail in Hs1 as [-> _]; exact Ha.
Qed.

End Run.

End AlignerOriginFacts.

Module AlignerOriginExtras.
Import Aligner AlignerSpec AlignerFacts AlignerOrigin AlignerOriginFacts.

(** For keyword arguments with [1 <= min_scene_length <= min_still_scene_length]
    and [min_still_scene_length + 24 <= max_scene_length], every cut the
    aligner returns after the first is a WWXD scene change of the clip or
    lies at least [min_still_scene_length] frames after the cut before it
    (a cut taken by the LumaDiff fallback or at [max_scene_length]). *)
Theorem svt_av1_cut_origin (P : params) (sc : list bool) (diff : Z -> Q) (kfs : list Z) :
  valid P -> sc <> [] ->
  generate_svt_av1_keyframes P sc diff = Some kfs ->
  adjacent_ok (hint_or_still P sc) kfs.
Proof.
  intros HP Hne Hg. unfold generate_svt_av1_keyframes in Hg.
  destruct (run P sc diff) as [st|] eqn:Er; [|discriminate]. injection Hg as <-.
  unfold run in Er.
  pose proof (all_frames_wf sc Hne) as HF.
  destruct (init_inv P _ _ HF) as [Hi Hr].
  destruct (loop_origin P sc diff HP HF _ init_state st Hi Hr I Er) as [out0 [Ho Ha]].
  rewrite Ho, removelast_last. exact Ha.
Qed.

Lemma svt_av1_cut_origin_witness :
  adjacent_ok (hint_or_still AlignerInputs.params_small AlignerInputs.sc_17_33) [0; 33] /\
  adjacent_ok (hint_or_still defaults AlignerInputs.sc_no_hint_300) [0; 257].
Proof.
  split.
  - (* the WWXD cut at 33 *)
    apply (svt_av1_cut_origin AlignerInputs.params_small AlignerInputs.sc_17_33
             AlignerInputs.zero_diff [0; 33]).
    + unfold valid, AlignerInputs.params_small. cbn. lia.
    + discriminate.
    + vm_compute. reflexivity.
  - (* no WWXD cut: the cut at 257 is [min_still_scene_length] or more after 0 *)
    apply (svt_av1_cut_origin defaults AlignerInputs.sc_no_hint_300
             AlignerInputs.zero_diff [0; 257]).
    + exact valid_defaults.
    + discriminate.
    + vm_compute. reflexivity.
Defined.

End AlignerOriginExtras.

(* ------------------------------------------------------------------ *)
(** ** One QP file per start frame *)

Module QpNameFacts.
Import Cache String.
Open Scope string_scope.

Lemma uint_string_inj (d1 d2 : Decimal.uint) : uint_string d1 = uint_string d2 -> d1 = d2.
Proof.
  revert d2. induction d1; intros [] H; cbn in H; try discriminate;
    try reflexivity; injection H as H; f_equal; apply IHd1, H.
Qed.

Lemma z_string_inj (z1 z2 : Z) : z_string z1 = z_string z2 -> z1 = z2.
Proof.
  intro H. apply DecimalZ.to_int_inj. unfold z_string in H.
  destruct (Z.to_int z1) as [d1|d1], (Z.to_int z2) as [d2|d2].
  - f_equal. apply uint_string_inj, H.
  - exfalso. destruct d1; discriminate.
  - exfalso. destruct d2; discriminate.
  - f_equal. cbn in H. injection H as H. apply uint_string_inj, H.
Qed.

Lemma length_append (a b : string) : length (a ++ b) = (length a + length b)%nat.
Proof. induction a as [|c a IH]; cbn; [reflexivity | rewrite IH; reflexivity]. Qed.

Lemma append_cancel_r (a b t : string) : a ++ t = b ++ t -> a = b.
Proof.
  revert b. induction a as [|c a IH]; intros [|c' b] H; cbn in H.
  - reflexivity.
  - exfalso. apply (f_equal length) in H. cbn in H. rewrite length_append in H. lia.
  - exfalso. apply (f_equal length) in H. cbn in H. rewrite length_append in H. lia.
  - injection H as -> H. f_equal. apply IH, H.
Qed.

Lemma qp_name_inj (s1 s2 : Z) : qp_name s1 = qp_name s2 -> s1 = s2.
Proof.
  unfold qp_name. intro H. cbn in H. repeat (injection H as H).
  apply z_string_inj, (append_cancel_r _ _ ".txt"), H.
Qed.

Lemma lookup_filter_other {A} (fs : store A) k k' :
  String.eqb k' k = false ->
  lookup (filter (fun e => negb (String.eqb (fst e) k)) fs) k' = lookup fs k'.
Proof.
  intro Hk. induction fs as [|[k0 v] t IH]; [reflexivity|].
  cbn [filter fst lookup]. destruct (String.eqb_spec k0 k) as [->|Hne]; cbn [negb].
  - rewrite Hk. exact IH.
  - cbn [lookup]. rewrite IH. reflexivity.
Qed.

Lemma lookup_save_other {A} (fs : store A) k k' v :
  String.eqb k' k = false -> lookup (save fs k v) k' = lookup fs k'.
Proof.
  intro Hk. unfold save. cbn [lookup]. rewrite Hk. apply lookup_filter_other, Hk.
Qed.

End QpNameFacts.

Module QpNameExtras.
Import Cache QpNameFacts String.

(** The QP file is named after its start frame only: two different start
    frames give two different names [qpfile_<start_frame>.txt], and
    generating the QP file of one start frame leaves the file of any
    other start frame as it was. *)
Theorem qp_file_per_start_frame :
  (forall s1 s2, qp_name s1 = qp_name s2 -> s1 = s2) /\
  (forall keyframes s1 s2 qs, s1 <> s2 ->
     lookup (snd (fst (generate_qp_file keyframes s1 qs))) (qp_name s2) =
     lookup qs (qp_name s2)).
Proof.
  split; [exact qp_name_inj|].
  intros keyframes s1 s2 qs Hne. unfold generate_qp_file.
  destruct (lookup qs (qp_name s1)); [reflexivity|]. cbn [fst snd].
  apply lookup_save_other. apply String.eqb_neq. intro H. apply Hne.
  symmetry. apply qp_name_inj, H.
Qed.

Lemma qp_file_per_start_frame_witness :
  (0 <> 24)%Z /\
  lookup (snd (fst (generate_qp_file (fun _ => [0%Z]) 0 [(qp_name 24, "24 I -1"%string)])))
         (qp_name 24) = Some "24 I -1"%string.
Proof.
  split; [lia|].
  exact (proj2 qp_file_per_start_frame (fun _ => [0%Z]) 0 24
           [(qp_name 24, "24 I -1"%string)] ltac:(lia)).
Defined.

End QpNameExtras.
